(** * extra_page.py: extraction of page ranges from a PDF document

  A shallow embedding of [extract_pages] (src/extra_page.py) and the
  properties of it that the specification states.

  The function works on the file system and on the console, and it raises
  and catches exceptions.  It is embedded in a state-and-exception monad
  over a [world]: the files (a finite map from path to content) and the
  trace of the observable operations in program order.  pypdf is a
  library outside the repository: its document type, its parser and its
  serialiser are parameters of the development, as is the answer of the
  operating system to opening a path for writing.  Paths are plain strings,
  handled as [posixpath] handles them; integers are unbounded, as in
  Python. *)

From Stdlib Require Import ZArith Ascii String List Lia.
From stdpp Require Import base option list gmap strings.

Local Open Scope Z_scope.

(** ** Python strings *)

Module Str.

(** [s.endswith(suffix)]: some tail of [s] is [suffix]. *)
Fixpoint endswith (s suffix : string) : bool :=
  if String.eqb s suffix then true
  else match s with
       | EmptyString => false
       | String _ s' => endswith s' suffix
       end.

(** [s.startswith(prefix)]. *)
Definition startswith (s prefix : string) : bool := String.prefix prefix s.

(** The last character of a string, if it has one. *)
Fixpoint last (s : string) : option ascii :=
  match s with
  | EmptyString => None
  | String c EmptyString => Some c
  | String _ s' => last s'
  end.

(** [s.rstrip(c)] for a single character [c]. *)
Fixpoint rstrip (c : ascii) (s : string) : string :=
  match s with
  | EmptyString => EmptyString
  | String a s' =>
      match rstrip c s' with
      | EmptyString => if Ascii.eqb a c then EmptyString else String a EmptyString
      | r => String a r
      end
  end.

(** [s == c * len(s)]: every character of [s] is [c]. *)
Fixpoint all_char (c : ascii) (s : string) : bool :=
  match s with
  | EmptyString => true
  | String a s' => Ascii.eqb a c && all_char c s'
  end.

(** [s[:s.rfind(c) + 1]]: the prefix of [s] up to and including the last
    occurrence of [c]; empty when [c] does not occur. *)
Fixpoint upto_last (c : ascii) (s : string) : string :=
  match s with
  | EmptyString => EmptyString
  | String a s' =>
      match upto_last c s' with
      | EmptyString => if Ascii.eqb a c then String a EmptyString else EmptyString
      | h => String a h
      end
  end.

(** [s[s.rfind(c):]] when [c] occurs in [s], the empty string otherwise. *)
Fixpoint from_last (c : ascii) (s : string) : string :=
  match s with
  | EmptyString => EmptyString
  | String a s' =>
      match from_last c s' with
      | EmptyString => if Ascii.eqb a c then s else EmptyString
      | t => t
      end
  end.

(** ASCII lower-casing, as [str.lower] acts on ASCII letters. *)
Definition lower_ascii (a : ascii) : ascii :=
  let n := nat_of_ascii a in
  if (65 <=? n)%nat && (n <=? 90)%nat then ascii_of_nat (n + 32) else a.

Fixpoint lower (s : string) : string :=
  match s with
  | EmptyString => EmptyString
  | String a s' => String (lower_ascii a) (lower s')
  end.

End Str.

(** ** [os.path], POSIX flavour (posixpath.py of the Python library) *)

Module os_path.

Definition sep : ascii := "/"%char.

(** [posixpath.dirname]:
      i = p.rfind(sep) + 1; head = p[:i]
      if head and head != sep*len(head): head = head.rstrip(sep) *)
Definition dirname (p : string) : string :=
  let head := Str.upto_last sep p in
  if negb (String.eqb head "") && negb (Str.all_char sep head)
  then Str.rstrip sep head
  else head.

(** [posixpath.join(a, b)] with one component [b]:
      if b.startswith(sep): path = b
      elif not path or path.endswith(sep): path += b
      else: path += sep + b *)
Definition join (a b : string) : string :=
  if Str.startswith b "/" then b
  else if String.eqb a "" || Str.endswith a "/" then a +:+ b
  else a +:+ "/" +:+ b.

(** The extension of a path as [posixpath.splitext] gives it: from the
    last dot of the last component, unless that component has no dot
    after its leading dots. *)
Fixpoint strip_leading_dots (s : string) : string :=
  match s with
  | String "."%char s' => strip_leading_dots s'
  | _ => s
  end.

Fixpoint basename_from (p acc : string) : string :=
  match p with
  | EmptyString => acc
  | String a p' =>
      if Ascii.eqb a sep then basename_from p' p' else basename_from p' acc
  end.

Definition basename (p : string) : string := basename_from p p.

Definition extension (p : string) : string :=
  Str.from_last "."%char (strip_leading_dots (basename p)).

End os_path.

(** ** Python integers, ranges and sequence indexing *)

(** [range(lo, hi)] *)
Definition range (lo hi : Z) : list Z :=
  (fun k : nat => lo + Z.of_nat k) <$> seq 0 (Z.to_nat (hi - lo)).

(** [l[i]] on a sequence: a negative index counts from the end, and an index
    out of range is an [IndexError] ([None] here). *)
Definition getitem {A : Type} (l : list A) (i : Z) : option A :=
  let n := Z.of_nat (length l) in
  let j := if i <? 0 then i + n else i in
  if (0 <=? j) && (j <? n) then l !! Z.to_nat j else None.

(** ** The world: files and the trace of observable operations *)

Definition bytes : Type := list Byte.byte.

(** The exceptions that can arise; all of them are subclasses of Python's
    [Exception]. *)
Inductive exn : Type :=
| FileNotFoundError (path : string)
| PdfReadError (path : string)
| OSError (path : string)
| IndexError.

(** The lines the program prints, one constructor per [print] of the source
    (the numbers are the source lines). *)
Inductive message : Type :=
| MsgTotalPages (total_pages : Z)                          (* 45 *)
| WarnBelowOne (start end_ offset : Z)                     (* 55 *)
| WarnBeyondTotal (start end_ offset total_pages : Z)      (* 59 *)
| WarnInverted (start end_ offset : Z)                     (* 63 *)
| MsgSaved (start end_ : Z) (output_path : string)         (* 86 *)
| MsgMarkdownCreated (md_output_path : string)             (* 97 *)
| ErrMarkdown (md_output_path : string) (e : exn)          (* 99 *)
| ErrProcessing (e : exn).                                 (* 103 *)

Inductive event : Type :=
| EvParse (path : string)        (* PdfReader(path) *)
| EvOpenWrite (path : string)    (* open(path, "wb") or open(path, "w") *)
| EvPrint (m : message).

Record world : Type := World {
  files : gmap string bytes;
  trace : list event
}.

Definition log (e : event) (w : world) : world :=
  World (files w) (trace w ++ [e]).

Definition put_file (path : string) (data : bytes) (w : world) : world :=
  World (<[path := data]> (files w)) (trace w).

(** ** State and exceptions *)

Definition M (A : Type) : Type := world -> world * (exn + A).

Definition ret {A : Type} (a : A) : M A := fun w => (w, inr a).

Definition raise {A : Type} (e : exn) : M A := fun w => (w, inl e).

Definition bind {A B : Type} (m : M A) (k : A -> M B) : M B :=
  fun w => match m w with
           | (w', inl e) => (w', inl e)
           | (w', inr a) => k a w'
           end.

(** [try: m  except Exception as e: h e] *)
Definition try_except {A : Type} (m : M A) (h : exn -> M A) : M A :=
  fun w => match m w with
           | (w', inl e) => h e w'
           | r => r
           end.

Declare Scope io_scope.
Delimit Scope io_scope with io.
Notation "'let*' x ':=' m 'in' k" := (bind m (fun x => k))
  (at level 10, x name, m at level 100, k at level 200,
   format "'[v' 'let*'  x  ':='  m  'in' '/' k ']'") : io_scope.
Local Open Scope io_scope.

(** [for x in l: body x] *)
Fixpoint for_each {A : Type} (l : list A) (body : A -> M unit) : M unit :=
  match l with
  | [] => ret tt
  | x :: l' => let* _ := body x in for_each l' body
  end.

Definition print (m : message) : M unit := fun w => (log (EvPrint m) w, inr tt).

(** [os.path.exists(path)] *)
Definition os_path_exists (path : string) (w : world) : bool :=
  bool_decide (is_Some (files w !! path)).

(** ** A small document format, for examples

    A document is the byte [%] followed by its pages, one byte per page;
    any other content is not a document. *)

Definition toy_parse (content : bytes) : option (list Byte.byte) :=
  match content with
  | Byte.x25 :: pages => Some pages
  | _ => None
  end.

Definition toy_serialise (pages : list Byte.byte) : bytes := Byte.x25 :: pages.

Definition five_pages : bytes :=
  [Byte.x25; Byte.x01; Byte.x02; Byte.x03; Byte.x04; Byte.x05].

(** A directory [d] with a five-page document, under two names, and a file
    that is not a document. *)
Definition toy_world : world :=
  World (<["d/scan.PDF" := five_pages]>
         (<["d/s.pdf" := five_pages]>
          (<["d/broken.pdf" := [Byte.x00]]> ∅))) [].

Definition all_writable (path : string) : bool := true.

Definition all_but (denied : string) (path : string) : bool :=
  negb (String.eqb path denied).

(** ** The program *)

(** A page-range descriptor [(start, end, pdfname)]. *)
Definition page_range : Type := Z * Z * string.

Section ExtraPage.

(** pypdf: the pages of a document, [PdfReader] on the content of a file
    ([None]: the content is not a document pypdf can read) and
    [PdfWriter.write] of the pages added to a writer. *)
Variable page : Type.
Variable pdf_parse : bytes -> option (list page).
Variable pdf_serialise : list page -> bytes.

(** Whether the operating system lets the path be opened for writing
    (permissions, missing directory, ...); the answer for a path is the same
    throughout, as the program changes neither permissions nor directories. *)
Variable writable : string -> bool.

(** [reader = PdfReader(pdf_path)], with [reader.pages] as the value. *)
Definition PdfReader (pdf_path : string) : M (list page) :=
  fun w =>
    let w' := log (EvParse pdf_path) w in
    match files w !! pdf_path with
    | None => (w', inl (FileNotFoundError pdf_path))
    | Some content =>
        match pdf_parse content with
        | None => (w', inl (PdfReadError pdf_path))
        | Some pages => (w', inr pages)
        end
    end.

(** [open(path, "wb")] and [open(path, "w")]: the file is created, or
    truncated when it exists; [OSError] when the path cannot be opened. *)
Definition open_write (path : string) : M unit :=
  fun w =>
    let w' := log (EvOpenWrite path) w in
    if writable path then (put_file path [] w', inr tt)
    else (w', inl (OSError path)).

(** [writer.write(output_file)] on the file opened at [path]; writing to an
    open file is taken to succeed. *)
Definition write_document (path : string) (writer : list page) : M unit :=
  fun w => (put_file path (pdf_serialise writer) w, inr tt).

(** Lines 70-71:
      for page_num in range(actual_start - 1, actual_end):
          writer.add_page(reader.pages[page_num]) *)
Fixpoint add_pages (reader : list page) (page_nums : list Z)
    (writer : list page) : M (list page) :=
  match page_nums with
  | [] => ret writer
  | page_num :: rest =>
      match getitem reader page_num with
      | None => raise IndexError
      | Some p => add_pages reader rest (writer ++ [p])
      end
  end.

(** Lines 75-77. *)
Definition pdf_output_filename (base_filename : string) : string :=
  if negb (Str.endswith base_filename ".pdf")
  then base_filename +:+ ".pdf"
  else base_filename.

(** Line 90. *)
Definition md_output_filename (base_filename : string) : string :=
  base_filename +:+ ".md".

(** Lines 49-99: the body of the loop over [page_ranges].  A [continue] ends
    the body. *)
Definition loop_body (reader : list page) (total_pages : Z)
    (pdf_dir : string) (offset : Z) (r : page_range) : M unit :=
  let '(start, end_, base_filename) := r in
  let actual_start := start + offset in
  let actual_end := end_ + offset in
  if (actual_start <? 1) || (actual_end <? 1) then
    print (WarnBelowOne start end_ offset)
  else if (actual_start >? total_pages) || (actual_end >? total_pages) then
    print (WarnBeyondTotal start end_ offset total_pages)
  else if actual_start >? actual_end then
    print (WarnInverted start end_ offset)
  else
    let* writer := add_pages reader (range (actual_start - 1) actual_end) [] in
    let output_path := os_path.join pdf_dir (pdf_output_filename base_filename) in
    let* _ := open_write output_path in
    let* _ := write_document output_path writer in
    let* _ := print (MsgSaved start end_ output_path) in
    let md_output_path := os_path.join pdf_dir (md_output_filename base_filename) in
    try_except
      (let* _ := open_write md_output_path in
       print (MsgMarkdownCreated md_output_path))
      (fun e => print (ErrMarkdown md_output_path e)).

(** Lines 37-39. *)
Definition pdf_dir_of (pdf_path : string) : string :=
  let pdf_dir := os_path.dirname pdf_path in
  if String.eqb pdf_dir "" then "." else pdf_dir.

(** Lines 32-104. *)
Definition extract_pages (pdf_path : string) (page_ranges : list page_range)
    (offset : Z) : M unit :=
  fun w =>
    if negb (os_path_exists pdf_path w) then
      raise (FileNotFoundError pdf_path) w
    else
      try_except
        (let pdf_dir := pdf_dir_of pdf_path in
         let* reader := PdfReader pdf_path in
         let total_pages := Z.of_nat (length reader) in
         let* _ := print (MsgTotalPages total_pages) in
         for_each page_ranges (loop_body reader total_pages pdf_dir offset))
        (fun e => let* _ := print (ErrProcessing e) in raise e)
        w.

(** ** Vocabulary of the specification *)

(** The effective range of a descriptor is valid:
    [1 <= start+offset <= end+offset <= total_pages]. *)
Definition effective_range_valid (total_pages offset : Z) (r : page_range) : Prop :=
  let '(start, end_, _) := r in
  1 <= start + offset /\ start + offset <= end_ + offset /\ end_ + offset <= total_pages.

(** The paths of the two files of a descriptor. *)
Definition document_path (pdf_dir : string) (r : page_range) : string :=
  os_path.join pdf_dir (pdf_output_filename r.2).

Definition companion_path (pdf_dir : string) (r : page_range) : string :=
  os_path.join pdf_dir (md_output_filename r.2).

(** The pages of the source at the 1-based positions [first] to [last],
    both included, in source order. *)
Definition source_pages (reader : list page) (first last : Z) : list page :=
  take (Z.to_nat (last - first + 1)) (drop (Z.to_nat (first - 1)) reader).

(** The pages the document of a descriptor holds. *)
Definition extracted_pages (reader : list page) (offset : Z) (r : page_range) : list page :=
  source_pages reader (r.1.1 + offset) (r.1.2 + offset).

Definition is_warning (m : message) : Prop :=
  match m with
  | WarnBelowOne _ _ _ | WarnBeyondTotal _ _ _ _ | WarnInverted _ _ _ => True
  | _ => False
  end.

(** The warning a descriptor with an invalid effective range is skipped
    with. *)
Definition skip_warning (total_pages offset : Z) (r : page_range) : message :=
  let '(start, end_, _) := r in
  if (start + offset <? 1) || (end_ + offset <? 1) then
    WarnBelowOne start end_ offset
  else if (start + offset >? total_pages) || (end_ + offset >? total_pages) then
    WarnBeyondTotal start end_ offset total_pages
  else WarnInverted start end_ offset.

(** What a run added to the trace. *)
Definition new_events (w w' : world) : list event :=
  drop (length (trace w)) (trace w').

Definition raises {A : Type} (r : world * (exn + A)) : Prop :=
  exists e, r.2 = inl e.

(** The document filename in the words of the specification: [outputName]
    with the extension of the source path appended unless [outputName] ends
    with it already. *)
Definition spec_document_filename (source_path output_name : string) : string :=
  let ext := os_path.extension source_path in
  if Str.endswith output_name ext then output_name else output_name +:+ ext.

(** The outcome of the loop body on a descriptor with a valid effective
    range, by whether its two paths can be opened for writing. *)
Definition processed (reader : list page) (pdf_dir : string) (offset : Z)
    (r : page_range) (w : world) : world * (exn + unit) :=
  let doc := document_path pdf_dir r in
  let md := companion_path pdf_dir r in
  if writable doc then
    let saved := <[doc := pdf_serialise (extracted_pages reader offset r)]> (files w) in
    let events := [EvOpenWrite doc; EvPrint (MsgSaved r.1.1 r.1.2 doc); EvOpenWrite md] in
    if writable md then
      (World (<[md := []]> saved)
             (trace w ++ events ++ [EvPrint (MsgMarkdownCreated md)]), inr tt)
    else
      (World saved
             (trace w ++ events ++ [EvPrint (ErrMarkdown md (OSError md))]), inr tt)
  else (log (EvOpenWrite doc) w, inl (OSError doc)).

(** ** The caller and further vocabulary *)

(** The three checks of lines 54-64 as one test: [true] when none of them
    fires and the descriptor is processed. *)
Definition range_accepted (total_pages offset : Z) (r : page_range) : bool :=
  let '(start, end_, _) := r in
  negb ((start + offset <? 1) || (end_ + offset <? 1))
  && negb ((start + offset >? total_pages) || (end_ + offset >? total_pages))
  && negb (start + offset >? end_ + offset).

(** The descriptors with the offset added to their bounds. *)
Definition shift_ranges (offset : Z) (rs : list page_range) : list page_range :=
  (fun r : page_range => (r.1.1 + offset, r.1.2 + offset, r.2)) <$> rs.

(** The paths opened for writing, in the order of the trace. *)
Definition opened_paths (evs : list event) : list string :=
  omap (fun e => match e with EvOpenWrite p => Some p | _ => None end) evs.

(** The two paths of the descriptors that pass the checks, in list order. *)
Definition expected_opens (total_pages offset : Z) (pdf_dir : string)
    (rs : list page_range) : list string :=
  List.flat_map (fun r => [document_path pdf_dir r; companion_path pdf_dir r])
    (List.filter (range_accepted total_pages offset) rs).

(** Descriptors that follow one another without gap or overlap, from page
    [first] to page [last]. *)
Fixpoint chained (first last : Z) (rs : list page_range) : Prop :=
  match rs with
  | [] => first = last + 1
  | r :: rs' => r.1.1 = first /\ first <= r.1.2 /\ chained (r.1.2 + 1) last rs'
  end.

(** Lines 112 and 115-128 of [main]. *)
Definition main_pdf_path : string :=
  "D:\01学期课程2_2\3_1\编译原理\Compilers.pdf".

Definition main_page_ranges : list page_range :=
  [ (46, 98, "Chapter 1. Introduction");
    (99, 189, "Chapter 2. A Simple Syntax-Directed Translator");
    (190, 296, "Chapter 3. Lexical Analysis");
    (297, 445, "Chapter 4. Syntax Analysis");
    (446, 515, "Chapter 5. Syntax-Directed Translation");
    (516, 611, "Chapter 6. Intermediate-Code Generation");
    (612, 714, "Chapter 7. Run-Time Environments");
    (715, 819, "Chapter 8. Code Generation");
    (820, 982, "Chapter 9. Machine-Independent Optimizations");
    (983, 1062, "Chapter 10. Instruction-Level Parallelism");
    (1063, 1236, "Chapter 11. Optimizing for Parallelism and Locality");
    (1237, 1350, "Chapter 12. Interprocedural Analysis") ].

(** The line [main] prints last: line 132, 134 or 136.  These lines are not
    among the [message]s of [extract_pages]; the line is the value [main]
    returns here. *)
Inductive main_line : Type :=
| MainDone                               (* 132 *)
| MainNotFound (pdf_path : string)       (* 134 *)
| MainError (e : exn).                   (* 136 *)

(** Lines 130-136:
      try: extract_pages(pdf_path, page_ranges, offset=0); print(done)
      except FileNotFoundError: print(not found)
      except Exception as e: print(e) *)
Definition main : M main_line :=
  try_except
    (let* _ := extract_pages main_pdf_path main_page_ranges 0 in
     ret MainDone)
    (fun e => match e with
              | FileNotFoundError _ => ret (MainNotFound main_pdf_path)
              | _ => ret (MainError e)
              end).

(** ** Strings and paths *)

Lemma string_app_nil (t : string) : "" +:+ t = t.
Proof. reflexivity. Qed.

Lemma string_app_cons (a : ascii) (s t : string) :
  String a s +:+ t = String a (s +:+ t).
Proof. reflexivity. Qed.

Lemma endswith_refl (s : string) : Str.endswith s s = true.
Proof. destruct s; cbn [Str.endswith]; by rewrite String.eqb_refl. Qed.

Lemma endswith_app (p s : string) : Str.endswith (p +:+ s) s = true.
Proof.
  induction p as [|a p IH]; [apply endswith_refl|].
  rewrite string_app_cons. cbn [Str.endswith]. rewrite IH. by destruct (String.eqb _ _).
Qed.

Lemma endswith_spec (s suffix : string) :
  Str.endswith s suffix = true <-> exists p, s = p +:+ suffix.
Proof.
  split.
  - induction s as [|a s IH]; cbn [Str.endswith].
    + destruct (String.eqb_spec "" suffix) as [<-|]; [|done].
      intros _. by exists "".
    + destruct (String.eqb_spec (String a s) suffix) as [<-|].
      * intros _. by exists "".
      * intros [p ->]%IH. by exists (String a p).
  - intros [p ->]. apply endswith_app.
Qed.

Lemma string_length_app (s t : string) :
  String.length (s +:+ t) = (String.length s + String.length t)%nat.
Proof.
  induction s; rewrite ?string_app_nil, ?string_app_cons; simpl; congruence.
Qed.

Lemma app_suffix_inj (s1 s2 t1 t2 : string) :
  s1 +:+ t1 = s2 +:+ t2 -> String.length t1 = String.length t2 -> t1 = t2.
Proof.
  revert s2.
  induction s1 as [|a s1 IH]; intros [|b s2];
    rewrite ?string_app_nil, ?string_app_cons.
  - done.
  - intros -> Hl. simpl in Hl. rewrite string_length_app in Hl. lia.
  - intros <- Hl. simpl in Hl. rewrite string_length_app in Hl. lia.
  - intros [= _ H]. eauto.
Qed.

Lemma lower_length (s : string) : String.length (Str.lower s) = String.length s.
Proof. induction s; simpl; congruence. Qed.

Lemma last_app (s t : string) : t <> "" -> Str.last (s +:+ t) = Str.last t.
Proof.
  intros Ht. induction s as [|a s IH]; [done|].
  rewrite string_app_cons. cbn [Str.last]. rewrite IH.
  destruct (s +:+ t) eqn:E; [|done].
  destruct s; [done|discriminate].
Qed.

Lemma last_join (a b : string) : b <> "" -> Str.last (os_path.join a b) = Str.last b.
Proof.
  intros Hb. unfold os_path.join.
  destruct (Str.startswith b "/"); [done|].
  destruct (_ || _); rewrite !last_app; done.
Qed.

Lemma last_document_path (pdf_dir : string) (r : page_range) :
  Str.last (document_path pdf_dir r) = Some "f"%char.
Proof.
  unfold document_path, pdf_output_filename.
  destruct (Str.endswith r.2 ".pdf") eqn:E; simpl.
  - apply endswith_spec in E as [p E]. rewrite E.
    rewrite last_join; [by rewrite last_app|].
    destruct p; done.
  - rewrite last_join; [by rewrite last_app|].
    destruct r.2; done.
Qed.

Lemma last_companion_path (pdf_dir : string) (r : page_range) :
  Str.last (companion_path pdf_dir r) = Some "d"%char.
Proof.
  unfold companion_path, md_output_filename.
  rewrite last_join; [by rewrite last_app|].
  destruct r.2; done.
Qed.

Lemma document_companion_ne (pdf_dir : string) (r r' : page_range) :
  document_path pdf_dir r <> companion_path pdf_dir r'.
Proof.
  intros E. pose proof (last_document_path pdf_dir r) as H1.
  rewrite E, last_companion_path in H1. discriminate.
Qed.

(** ** The loop body *)

Lemma getitem_nat {A : Type} (l : list A) (i : nat) :
  (i < length l)%nat -> getitem l (Z.of_nat i) = l !! i.
Proof.
  intros Hi. unfold getitem.
  destruct (Z.ltb_spec (Z.of_nat i) 0) as [|_]; [lia|].
  destruct (Z.leb_spec 0 (Z.of_nat i)); [|lia].
  destruct (Z.ltb_spec (Z.of_nat i) (Z.of_nat (length l))); [|lia].
  simpl. by rewrite Nat2Z.id.
Qed.

Lemma add_pages_seq (reader : list page) (n lo : nat) (writer : list page) (w : world) :
  (lo + n <= length reader)%nat ->
  add_pages reader ((fun k : nat => Z.of_nat lo + Z.of_nat k) <$> seq 0 n) writer w
  = (w, inr (writer ++ take n (drop lo reader))).
Proof.
  revert lo writer. induction n as [|n IH]; intros lo writer Hn.
  - simpl. unfold ret. by rewrite app_nil_r.
  - destruct (lookup_lt_is_Some_2 reader lo) as [p Hp]; [lia|].
    cbn [seq fmap list_fmap add_pages].
    replace (Z.of_nat lo + Z.of_nat 0) with (Z.of_nat lo) by lia.
    rewrite getitem_nat, Hp by lia.
    rewrite <- fmap_S_seq, <- list_fmap_compose.
    erewrite (list_fmap_ext _ (fun k : nat => Z.of_nat (S lo) + Z.of_nat k));
      [|intros; simpl; lia].
    rewrite IH by lia.
    rewrite (drop_S _ _ _ Hp). simpl. by rewrite <- app_assoc.
Qed.

Lemma add_pages_valid (reader : list page) (first last : Z) (w : world) :
  1 <= first -> first <= last -> last <= Z.of_nat (length reader) ->
  add_pages reader (range (first - 1) last) [] w
  = (w, inr (source_pages reader first last)).
Proof.
  intros H1 H2 H3. unfold range, source_pages.
  replace (last - (first - 1)) with (last - first + 1) by lia.
  erewrite (list_fmap_ext _
    (fun k : nat => Z.of_nat (Z.to_nat (first - 1)) + Z.of_nat k));
    [|intros; simpl; lia].
  rewrite add_pages_seq by lia. done.
Qed.

Lemma loop_body_skip (reader : list page) (total_pages : Z) (pdf_dir : string)
    (offset : Z) (r : page_range) (w : world) :
  ~ effective_range_valid total_pages offset r ->
  loop_body reader total_pages pdf_dir offset r w
  = (log (EvPrint (skip_warning total_pages offset r)) w, inr tt).
Proof.
  destruct r as [[start end_] base].
  unfold effective_range_valid, loop_body, skip_warning. intros Hnv.
  destruct (Z.ltb_spec (start + offset) 1), (Z.ltb_spec (end_ + offset) 1),
    (Z.gtb_spec (start + offset) total_pages),
    (Z.gtb_spec (end_ + offset) total_pages),
    (Z.gtb_spec (start + offset) (end_ + offset)); simpl; try done.
  exfalso. apply Hnv. lia.
Qed.

Lemma loop_body_valid (reader : list page) (pdf_dir : string) (offset : Z)
    (r : page_range) (w : world) :
  effective_range_valid (Z.of_nat (length reader)) offset r ->
  loop_body reader (Z.of_nat (length reader)) pdf_dir offset r w
  = processed reader pdf_dir offset r w.
Proof.
  destruct r as [[start end_] base].
  unfold effective_range_valid, loop_body, processed, extracted_pages,
    document_path, companion_path. simpl.
  intros (H1 & H2 & H3).
  destruct (Z.ltb_spec (start + offset) 1); [lia|].
  destruct (Z.ltb_spec (end_ + offset) 1); [lia|].
  destruct (Z.gtb_spec (start + offset) (Z.of_nat (length reader))); [lia|].
  destruct (Z.gtb_spec (end_ + offset) (Z.of_nat (length reader))); [lia|].
  destruct (Z.gtb_spec (start + offset) (end_ + offset)); [lia|].
  simpl. unfold bind at 1. rewrite add_pages_valid by lia.
  unfold bind, try_except, open_write, write_document, print, put_file, log.
  simpl.
  destruct (writable (os_path.join pdf_dir (pdf_output_filename base))); [|done].
  simpl. rewrite insert_insert_eq.
  destruct (writable (os_path.join pdf_dir (md_output_filename base)));
    simpl; by rewrite <- !app_assoc.
Qed.

Lemma effective_range_valid_dec (total_pages offset : Z) (r : page_range) :
  effective_range_valid total_pages offset r \/
  ~ effective_range_valid total_pages offset r.
Proof. destruct r as [[start end_] base]. unfold effective_range_valid. lia. Qed.

Lemma processed_result (reader : list page) (pdf_dir : string) (offset : Z)
    (r : page_range) (w : world) :
  (processed reader pdf_dir offset r w).2
  = if writable (document_path pdf_dir r) then inr tt
    else inl (OSError (document_path pdf_dir r)).
Proof. unfold processed. by repeat destruct (writable _). Qed.

Lemma processed_files (reader : list page) (pdf_dir : string) (offset : Z)
    (r : page_range) (w : world) :
  files (processed reader pdf_dir offset r w).1
  = if writable (document_path pdf_dir r) then
      let saved := <[document_path pdf_dir r :=
                       pdf_serialise (extracted_pages reader offset r)]> (files w) in
      if writable (companion_path pdf_dir r)
      then <[companion_path pdf_dir r := []]> saved else saved
    else files w.
Proof. unfold processed. by repeat destruct (writable _). Qed.

(** The loop body raises exactly when the range is valid and the document
    cannot be opened for writing. *)
Lemma loop_body_raises (reader : list page) (pdf_dir : string) (offset : Z)
    (r : page_range) (w : world) :
  raises (loop_body reader (Z.of_nat (length reader)) pdf_dir offset r w) <->
  effective_range_valid (Z.of_nat (length reader)) offset r /\
  writable (document_path pdf_dir r) = false.
Proof.
  unfold raises.
  destruct (effective_range_valid_dec (Z.of_nat (length reader)) offset r) as [Hv|Hv].
  - rewrite loop_body_valid, processed_result by done.
    destruct (writable _); split.
    + by intros [e ?].
    + by intros [_ ?].
    + by intros _.
    + by eexists.
  - rewrite loop_body_skip by done. simpl. split.
    + by intros [e ?].
    + by intros [? _].
Qed.

Lemma loop_body_result (reader : list page) (pdf_dir : string) (offset : Z)
    (r : page_range) (w w' : world) :
  (loop_body reader (Z.of_nat (length reader)) pdf_dir offset r w).2
  = (loop_body reader (Z.of_nat (length reader)) pdf_dir offset r w').2.
Proof.
  destruct (effective_range_valid_dec (Z.of_nat (length reader)) offset r) as [Hv|Hv].
  - by rewrite !loop_body_valid, !processed_result.
  - by rewrite !loop_body_skip.
Qed.

(** The loop body touches no path but the two of its descriptor. *)
Lemma loop_body_frame (reader : list page) (pdf_dir : string) (offset : Z)
    (r : page_range) (w : world) (p : string) :
  (effective_range_valid (Z.of_nat (length reader)) offset r ->
   p <> document_path pdf_dir r) ->
  p <> companion_path pdf_dir r ->
  files (loop_body reader (Z.of_nat (length reader)) pdf_dir offset r w).1 !! p
  = files w !! p.
Proof.
  intros Hdoc Hmd.
  destruct (effective_range_valid_dec (Z.of_nat (length reader)) offset r) as [Hv|Hv].
  - specialize (Hdoc Hv). rewrite loop_body_valid, processed_files by done.
    repeat destruct (writable _); simpl; by rewrite ?lookup_insert_ne.
  - by rewrite loop_body_skip.
Qed.

(** A companion file, once empty, stays empty. *)
Lemma loop_body_keeps_empty (reader : list page) (pdf_dir : string) (offset : Z)
    (r : page_range) (w : world) (p : string) :
  Str.last p = Some "d"%char ->
  files w !! p = Some [] ->
  files (loop_body reader (Z.of_nat (length reader)) pdf_dir offset r w).1 !! p
  = Some [].
Proof.
  intros Hp Hw.
  assert (p <> document_path pdf_dir r) as Hdoc.
  { intros ->. rewrite last_document_path in Hp. discriminate. }
  destruct (effective_range_valid_dec (Z.of_nat (length reader)) offset r) as [Hv|Hv].
  - rewrite loop_body_valid, processed_files by done.
    destruct (writable (document_path pdf_dir r)); [|done].
    destruct (writable (companion_path pdf_dir r)); simpl.
    + destruct (decide (companion_path pdf_dir r = p)) as [->|].
      * by rewrite lookup_insert_eq.
      * by rewrite !lookup_insert_ne.
    + by rewrite lookup_insert_ne.
  - by rewrite loop_body_skip.
Qed.

(** Two runs of the loop body on the same descriptor, from any two worlds,
    end alike: with the same result, and at every path either with the same
    content or with the content each world had there. *)
Lemma loop_body_sim (reader : list page) (pdf_dir : string) (offset : Z)
    (r : page_range) (w w' : world) (p : string) :
  let o := loop_body reader (Z.of_nat (length reader)) pdf_dir offset r w in
  let o' := loop_body reader (Z.of_nat (length reader)) pdf_dir offset r w' in
  files o.1 !! p = files o'.1 !! p \/
  (files o.1 !! p = files w !! p /\ files o'.1 !! p = files w' !! p).
Proof.
  simpl.
  destruct (effective_range_valid_dec (Z.of_nat (length reader)) offset r) as [Hv|Hv].
  - rewrite !loop_body_valid, !processed_files by done.
    destruct (writable (document_path pdf_dir r)); [|by right].
    destruct (decide (document_path pdf_dir r = p)) as [<-|Hd].
    + left. destruct (writable (companion_path pdf_dir r)); simpl.
      * rewrite !(lookup_insert_ne _ (companion_path pdf_dir r))
          by (intros E; by apply (document_companion_ne pdf_dir r r)).
        by rewrite !lookup_insert_eq.
      * by rewrite !lookup_insert_eq.
    + destruct (writable (companion_path pdf_dir r)); simpl.
      * destruct (decide (companion_path pdf_dir r = p)) as [<-|Hm].
        -- left. by rewrite !lookup_insert_eq.
        -- right. by rewrite !lookup_insert_ne.
      * right. by rewrite !lookup_insert_ne.
  - rewrite !loop_body_skip by done. by right.
Qed.

(** ** The loop *)

Section Loop.

Variable reader : list page.
Variable pdf_dir : string.
Variable offset : Z.

Local Abbreviation body :=
  (loop_body reader (Z.of_nat (length reader)) pdf_dir offset).

Lemma for_each_cons (r : page_range) (rs : list page_range) (w : world) :
  for_each (r :: rs) body w
  = match body r w with
    | (w', inl e) => (w', inl e)
    | (w', inr _) => for_each rs body w'
    end.
Proof. reflexivity. Qed.

Lemma for_each_app (rs1 rs2 : list page_range) (w : world) :
  for_each (rs1 ++ rs2) body w
  = match for_each rs1 body w with
    | (w', inl e) => (w', inl e)
    | (w', inr _) => for_each rs2 body w'
    end.
Proof.
  revert w. induction rs1 as [|r rs1 IH]; intros w; [done|].
  rewrite <- app_comm_cons, !for_each_cons.
  destruct (body r w) as [w1 [e|[]]]; [done|]. apply IH.
Qed.

Lemma for_each_raises (rs : list page_range) (w : world) :
  raises (for_each rs body w) <->
  exists r, r ∈ rs /\
    effective_range_valid (Z.of_nat (length reader)) offset r /\
    writable (document_path pdf_dir r) = false.
Proof.
  revert w. induction rs as [|r rs IH]; intros w.
  - split.
    + by intros [e ?].
    + intros (r & Hr & _). by apply elem_of_nil in Hr.
  - rewrite for_each_cons.
    pose proof (loop_body_raises reader pdf_dir offset r w) as Hb.
    destruct (body r w) as [w1 [e|[]]].
    + split.
      * intros _. exists r. split; [left|]. apply Hb. by eexists.
      * intros _. by eexists.
    + rewrite IH. split.
      * intros (r' & Hr' & H). exists r'. split; [by right|done].
      * intros (r' & Hr' & H). apply elem_of_cons in Hr' as [->|Hr'].
        -- apply Hb in H as [e He]. discriminate.
        -- by exists r'.
Qed.

Lemma for_each_sim (rs : list page_range) (w w' : world) (p : string) :
  (for_each rs body w).2 = (for_each rs body w').2 /\
  (files (for_each rs body w).1 !! p = files (for_each rs body w').1 !! p \/
   (files (for_each rs body w).1 !! p = files w !! p /\
    files (for_each rs body w').1 !! p = files w' !! p)).
Proof.
  revert w w'. induction rs as [|r rs IH]; intros w w'.
  - simpl. split; [done|by right].
  - rewrite !for_each_cons.
    pose proof (loop_body_result reader pdf_dir offset r w w') as Hres.
    pose proof (loop_body_sim reader pdf_dir offset r w w' p) as Hsim.
    simpl in Hsim.
    destruct (body r w) as [w1 [e|[]]], (body r w') as [w1' [e'|[]]];
      simpl in *; try discriminate.
    + split; [done|]. exact Hsim.
    + destruct (IH w1 w1') as [IH1 IH2]. split; [done|].
      destruct IH2 as [?|[E1 E2]]; [by left|].
      rewrite E1, E2. exact Hsim.
Qed.

Lemma for_each_frame (rs : list page_range) (w : world) (p : string) :
  (forall r, r ∈ rs ->
     effective_range_valid (Z.of_nat (length reader)) offset r ->
     p <> document_path pdf_dir r) ->
  (forall r, r ∈ rs -> p <> companion_path pdf_dir r) ->
  files (for_each rs body w).1 !! p = files w !! p.
Proof.
  revert w. induction rs as [|r rs IH]; intros w Hdoc Hmd; [done|].
  rewrite for_each_cons.
  pose proof (loop_body_frame reader pdf_dir offset r w p) as Hb.
  destruct (body r w) as [w1 [e|[]]]; simpl in *.
  - apply Hb; [apply Hdoc; left|apply Hmd; left].
  - rewrite IH.
    + apply Hb; [apply Hdoc; left|apply Hmd; left].
    + intros r' Hr'. apply Hdoc. by right.
    + intros r' Hr'. apply Hmd. by right.
Qed.

Lemma for_each_keeps_empty (rs : list page_range) (w : world) (p : string) :
  Str.last p = Some "d"%char ->
  files w !! p = Some [] ->
  files (for_each rs body w).1 !! p = Some [].
Proof.
  intros Hp. revert w. induction rs as [|r rs IH]; intros w Hw; [done|].
  rewrite for_each_cons.
  pose proof (loop_body_keeps_empty reader pdf_dir offset r w p Hp Hw) as Hb.
  destruct (body r w) as [w1 [e|[]]]; simpl in *; auto.
Qed.

End Loop.

(** ** The whole call *)

Lemma os_path_exists_false (path : string) (w : world) :
  os_path_exists path w = false <-> files w !! path = None.
Proof.
  unfold os_path_exists. rewrite bool_decide_eq_false, <- eq_None_not_Some. done.
Qed.

Lemma extract_pages_missing (pdf_path : string) (page_ranges : list page_range)
    (offset : Z) (w : world) :
  files w !! pdf_path = None ->
  extract_pages pdf_path page_ranges offset w = (w, inl (FileNotFoundError pdf_path)).
Proof.
  intros H. unfold extract_pages.
  apply os_path_exists_false in H. by rewrite H.
Qed.

Lemma extract_pages_unparsable (pdf_path : string) (page_ranges : list page_range)
    (offset : Z) (w : world) (content : bytes) :
  files w !! pdf_path = Some content ->
  pdf_parse content = None ->
  extract_pages pdf_path page_ranges offset w
  = (World (files w)
       (trace w ++ [EvParse pdf_path; EvPrint (ErrProcessing (PdfReadError pdf_path))]),
     inl (PdfReadError pdf_path)).
Proof.
  intros Hf Hp. unfold extract_pages.
  assert (os_path_exists pdf_path w = true) as ->.
  { unfold os_path_exists. apply bool_decide_eq_true. by eexists. }
  unfold try_except, bind, PdfReader, print, raise, log. simpl.
  rewrite Hf, Hp. simpl. by rewrite <- app_assoc.
Qed.

(** The world the loop starts from. *)
Lemma extract_pages_parsed (pdf_path : string) (page_ranges : list page_range)
    (offset : Z) (w : world) (content : bytes) (reader : list page) :
  files w !! pdf_path = Some content ->
  pdf_parse content = Some reader ->
  extract_pages pdf_path page_ranges offset w
  = match for_each page_ranges
            (loop_body reader (Z.of_nat (length reader)) (pdf_dir_of pdf_path) offset)
            (World (files w)
               (trace w ++ [EvParse pdf_path;
                            EvPrint (MsgTotalPages (Z.of_nat (length reader)))]))
    with
    | (w', inl e) => (log (EvPrint (ErrProcessing e)) w', inl e)
    | (w', inr u) => (w', inr u)
    end.
Proof.
  intros Hf Hp. unfold extract_pages.
  assert (os_path_exists pdf_path w = true) as ->.
  { unfold os_path_exists. apply bool_decide_eq_true. by eexists. }
  unfold try_except, bind at 1, PdfReader. simpl. rewrite Hf, Hp.
  unfold bind at 1, print, log. simpl. rewrite <- app_assoc. simpl.
  by destruct (for_each _ _ _) as [w' [e|u]].
Qed.

Lemma new_events_app (w : world) (fs : gmap string bytes) (evs : list event) :
  new_events w (World fs (trace w ++ evs)) = evs.
Proof. unfold new_events. simpl. by rewrite drop_app_length. Qed.

Lemma new_events_log (w : world) (e : event) : new_events w (log e w) = [e].
Proof. apply new_events_app. Qed.

(** After a loop that completes, the companion file of every processed
    descriptor whose companion path could be opened is empty. *)
Lemma for_each_companion_empty (reader : list page) (pdf_dir : string) (offset : Z)
    (rs : list page_range) (w : world) (r : page_range) :
  (for_each rs (loop_body reader (Z.of_nat (length reader)) pdf_dir offset) w).2
    = inr tt ->
  r ∈ rs ->
  effective_range_valid (Z.of_nat (length reader)) offset r ->
  writable (companion_path pdf_dir r) = true ->
  files (for_each rs (loop_body reader (Z.of_nat (length reader)) pdf_dir offset) w).1
    !! companion_path pdf_dir r = Some [].
Proof.
  revert w. induction rs as [|r0 rs IH]; intros w Hres Hin Hv Hmd.
  { by apply elem_of_nil in Hin. }
  rewrite for_each_cons in Hres |- *.
  pose proof (loop_body_raises reader pdf_dir offset r0 w) as Hr.
  pose proof (loop_body_valid reader pdf_dir offset r0 w) as Hp.
  destruct (loop_body _ _ _ _ r0 w) as [w1 [e|[]]]; [done|].
  destruct (decide (r ∈ rs)) as [Hin'|Hin']; [by apply IH|].
  apply elem_of_cons in Hin as [->|]; [|done].
  apply for_each_keeps_empty; [apply last_companion_path|].
  specialize (Hp Hv).
  assert (files w1 = files (processed reader pdf_dir offset r0 w).1) as ->
    by (by rewrite <- Hp).
  rewrite processed_files, Hmd.
  destruct (writable (document_path pdf_dir r0)) eqn:Hd.
  - simpl. by rewrite lookup_insert_eq.
  - destruct Hr as [_ Hr]. destruct Hr as [e He]; [done|discriminate].
Qed.

(** ** Running the call again *)

Lemma extract_pages_again (pdf_path : string) (page_ranges : list page_range)
    (offset : Z) (w : world) :
  files (extract_pages pdf_path page_ranges offset w).1 !! pdf_path
    = files w !! pdf_path ->
  files (extract_pages pdf_path page_ranges offset
           (extract_pages pdf_path page_ranges offset w).1).1
    = files (extract_pages pdf_path page_ranges offset w).1 /\
  (extract_pages pdf_path page_ranges offset
     (extract_pages pdf_path page_ranges offset w).1).2
    = (extract_pages pdf_path page_ranges offset w).2.
Proof.
  destruct (files w !! pdf_path) as [content|] eqn:Hf.
  2:{ rewrite extract_pages_missing by done. cbn [fst snd]. intros _.
      by rewrite extract_pages_missing. }
  destruct (pdf_parse content) as [reader|] eqn:Hp.
  2:{ rewrite (extract_pages_unparsable _ _ _ _ _ Hf Hp). cbn [fst snd].
      intros _.
      by rewrite (extract_pages_unparsable _ _ _ (World (files w) _) _ Hf Hp). }
  pose proof (extract_pages_parsed pdf_path page_ranges offset w content reader Hf Hp)
    as Ho1.
  remember (extract_pages pdf_path page_ranges offset w) as o1 eqn:Heq. clear Heq.
  intros Hsrc.
  rewrite (extract_pages_parsed _ _ _ _ _ _ Hsrc Hp).
  remember (World (files w) _) as w0 eqn:Hw0.
  remember (World (files o1.1) _) as w0' eqn:Hw0'.
  assert (files w0' = files o1.1) as Hfw0' by (by subst w0').
  clear Hw0 Hw0'.
  pose proof (fun p => for_each_sim reader (pdf_dir_of pdf_path) offset
                         page_ranges w0 w0' p) as Hsim.
  destruct (for_each page_ranges _ w0) as [w1 res1].
  destruct (for_each page_ranges _ w0') as [w2 res2].
  simpl in Hsim.
  assert (files o1.1 = files w1) as Hf1 by (subst o1; by destruct res1).
  assert (o1.2 = res1) as Hr1 by (subst o1; by destruct res1).
  assert (res2 = res1) as -> by (by destruct (Hsim "") as [-> _]).
  assert (files w2 = files w1) as Hf2.
  { apply map_eq. intros p. destruct (Hsim p) as [_ [E|[_ E]]]; [done|].
    by rewrite E, Hfw0', Hf1. }
  rewrite Hf1, Hr1. by destruct res1.
Qed.

Lemma processed_events (reader : list page) (pdf_dir : string) (offset : Z)
    (r : page_range) (w : world) :
  new_events w (processed reader pdf_dir offset r w).1
  = let doc := document_path pdf_dir r in
    let md := companion_path pdf_dir r in
    if writable doc then
      [EvOpenWrite doc; EvPrint (MsgSaved r.1.1 r.1.2 doc); EvOpenWrite md;
       EvPrint (if writable md then MsgMarkdownCreated md
                else ErrMarkdown md (OSError md))]
    else [EvOpenWrite doc].
Proof.
  unfold processed. simpl.
  repeat destruct (writable _); simpl; by rewrite ?new_events_app, ?new_events_log.
Qed.

(** ** The pages of a valid range *)

Lemma source_pages_spec (reader : list page) (first last : Z) :
  1 <= first -> first <= last -> last <= Z.of_nat (length reader) ->
  Z.of_nat (length (source_pages reader first last)) = last - first + 1 /\
  forall pos, first <= pos <= last ->
    exists pg, reader !! Z.to_nat (pos - 1) = Some pg /\
               source_pages reader first last !! Z.to_nat (pos - first) = Some pg.
Proof.
  intros H1 H2 H3. unfold source_pages. split.
  - rewrite length_take, length_drop. lia.
  - intros pos Hpos.
    destruct (lookup_lt_is_Some_2 reader (Z.to_nat (pos - 1))) as [pg Hpg]; [lia|].
    exists pg. split; [done|].
    rewrite lookup_take_lt by lia. rewrite lookup_drop.
    rewrite <- Hpg. f_equal. lia.
Qed.

(** ** The claims *)

(** C1. A descriptor whose effective range is valid yields a document of
    [end - start + 1] pages, the pages of the source at the 1-based positions
    [start+offset] to [end+offset] in ascending order.  These are the pages
    the loop body writes at the document path when the path can be opened,
    and the pages found there after a call that completes, unless a later
    descriptor writes the same path. *)
Theorem extract_valid_range_pages (reader : list page) (offset start end_ : Z)
    (base_filename : string) :
  effective_range_valid (Z.of_nat (length reader)) offset (start, end_, base_filename) ->
  let r : page_range := (start, end_, base_filename) in
  let out := extracted_pages reader offset r in
  (Z.of_nat (length out) = end_ - start + 1 /\
   forall pos, start + offset <= pos <= end_ + offset ->
     exists pg, reader !! Z.to_nat (pos - 1) = Some pg /\
                out !! Z.to_nat (pos - (start + offset)) = Some pg) /\
  (forall pdf_dir w,
     writable (document_path pdf_dir r) = true ->
     files (loop_body reader (Z.of_nat (length reader)) pdf_dir offset r w).1
       !! document_path pdf_dir r = Some (pdf_serialise out)) /\
  (forall pdf_path content before after w,
     files w !! pdf_path = Some content ->
     pdf_parse content = Some reader ->
     (extract_pages pdf_path (before ++ r :: after) offset w).2 = inr tt ->
     (forall r', r' ∈ after ->
        effective_range_valid (Z.of_nat (length reader)) offset r' ->
        document_path (pdf_dir_of pdf_path) r' <> document_path (pdf_dir_of pdf_path) r) ->
     files (extract_pages pdf_path (before ++ r :: after) offset w).1
       !! document_path (pdf_dir_of pdf_path) r = Some (pdf_serialise out)).
Proof.
  intros Hv r out.
  assert (forall pdf_dir w,
    writable (document_path pdf_dir r) = true ->
    files (loop_body reader (Z.of_nat (length reader)) pdf_dir offset r w).1
      !! document_path pdf_dir r = Some (pdf_serialise out)) as Hbody.
  { intros pdf_dir w Hw. rewrite loop_body_valid, processed_files, Hw by done.
    destruct (writable (companion_path pdf_dir r)); simpl.
    - rewrite lookup_insert_ne by (intros E; by apply (document_companion_ne pdf_dir r r)).
      by rewrite lookup_insert_eq.
    - by rewrite lookup_insert_eq. }
  split; [|split; [exact Hbody|]].
  - destruct Hv as (H1 & H2 & H3).
    destruct (source_pages_spec reader (start + offset) (end_ + offset))
      as [Hlen Hpos]; [lia..|].
    split; [|exact Hpos].
    unfold out, extracted_pages, r. simpl. lia.
  - intros pdf_path content before after w Hf Hp Hres Hafter.
    rewrite (extract_pages_parsed _ _ _ _ _ _ Hf Hp) in Hres |- *.
    rewrite for_each_app in Hres |- *.
    destruct (for_each before _ _) as [w1 [e|[]]]; [done|].
    rewrite for_each_cons in Hres |- *.
    pose proof (loop_body_raises reader (pdf_dir_of pdf_path) offset r w1) as Hr.
    specialize (Hbody (pdf_dir_of pdf_path) w1).
    destruct (loop_body _ _ _ _ r w1) as [w2 [e|[]]]; [done|].
    destruct (writable (document_path (pdf_dir_of pdf_path) r)) eqn:Hw.
    2:{ destruct Hr as [_ Hr]. destruct Hr as [e He]; [done|discriminate]. }
    simpl in Hbody. rewrite <- Hbody by done.
    pose proof (for_each_frame reader (pdf_dir_of pdf_path) offset after w2
                  (document_path (pdf_dir_of pdf_path) r)) as Hfr.
    destruct (for_each after _ w2) as [w3 [e|[]]]; [done|]. simpl in *.
    apply Hfr.
    + intros r' Hr' Hv' E. by apply (Hafter r' Hr' Hv').
    + intros r' _. apply document_companion_ne.
Qed.

(** C2. A descriptor whose effective range breaks one of the bounds is
    skipped: the loop body prints a warning and does nothing else (no file is
    created or changed, no path is opened), it does not raise, and the loop
    goes on with the next descriptor. *)
Theorem invalid_range_skipped (reader : list page) (total_pages : Z)
    (pdf_dir : string) (offset start end_ : Z) (base_filename : string)
    (rest : list page_range) (w : world) :
  start + offset < 1 \/ end_ + offset < 1 \/
  start + offset > total_pages \/ end_ + offset > total_pages \/
  start + offset > end_ + offset ->
  let r : page_range := (start, end_, base_filename) in
  let body := loop_body reader total_pages pdf_dir offset in
  exists m, is_warning m /\
    body r w = (World (files w) (trace w ++ [EvPrint m]), inr tt) /\
    for_each (r :: rest) body w
    = for_each rest body (World (files w) (trace w ++ [EvPrint m])).
Proof.
  intros Hbad r body. exists (skip_warning total_pages offset r).
  assert (body r w = (log (EvPrint (skip_warning total_pages offset r)) w, inr tt)) as Hb.
  { apply loop_body_skip. unfold effective_range_valid, r. lia. }
  split; [|split].
  - unfold skip_warning, r. by repeat destruct (_ || _).
  - exact Hb.
  - change (for_each (r :: rest) body w)
      with (bind (body r) (fun _ => for_each rest body) w).
    unfold bind. by rewrite Hb.
Qed.

(** C3. When the source path is not an existing file the call raises
    [FileNotFoundError] and leaves the world as it was: no file is created,
    and nothing is parsed, opened or printed. *)
Theorem missing_source_raises (pdf_path : string) (page_ranges : list page_range)
    (offset : Z) (w : world) :
  files w !! pdf_path = None ->
  extract_pages pdf_path page_ranges offset w = (w, inl (FileNotFoundError pdf_path)) /\
  new_events w (extract_pages pdf_path page_ranges offset w).1 = [].
Proof.
  intros H. rewrite extract_pages_missing by done. split; [done|].
  unfold new_events. simpl. apply drop_all.
Qed.

(** C4. For a processed descriptor the document is written under
    [outputName], with the literal extension [.pdf] appended unless
    [outputName] ends with [.pdf] already, and the companion under
    [outputName + ".md"]; no other path is touched.  So ["Chapter 1"] gives
    [Chapter 1.pdf] and [Chapter 1.md], and ["Chapter 1.pdf"] gives
    [Chapter 1.pdf] and [Chapter 1.pdf.md]. *)
Theorem output_filenames (reader : list page) (pdf_dir : string) (offset : Z)
    (r : page_range) (w : world) :
  effective_range_valid (Z.of_nat (length reader)) offset r ->
  writable (document_path pdf_dir r) = true ->
  writable (companion_path pdf_dir r) = true ->
  let o := loop_body reader (Z.of_nat (length reader)) pdf_dir offset r w in
  let document :=
    os_path.join pdf_dir (if Str.endswith r.2 ".pdf" then r.2 else r.2 +:+ ".pdf") in
  let companion := os_path.join pdf_dir (r.2 +:+ ".md") in
  (files o.1 !! document = Some (pdf_serialise (extracted_pages reader offset r)) /\
   files o.1 !! companion = Some [] /\
   forall p, p <> document -> p <> companion -> files o.1 !! p = files w !! p) /\
  (pdf_output_filename "Chapter 1" = "Chapter 1.pdf" /\
   md_output_filename "Chapter 1" = "Chapter 1.md") /\
  (pdf_output_filename "Chapter 1.pdf" = "Chapter 1.pdf" /\
   md_output_filename "Chapter 1.pdf" = "Chapter 1.pdf.md").
Proof.
  intros Hv Hd Hm. simpl.
  assert (os_path.join pdf_dir (if Str.endswith r.2 ".pdf" then r.2 else r.2 +:+ ".pdf")
          = document_path pdf_dir r) as ->.
  { unfold document_path, pdf_output_filename. by destruct (Str.endswith _ _). }
  change (os_path.join pdf_dir (r.2 +:+ ".md")) with (companion_path pdf_dir r).
  split; [|done].
  rewrite loop_body_valid, processed_files, Hd, Hm by done. simpl.
  split; [|split].
  - rewrite lookup_insert_ne by (intros E; by apply (document_companion_ne pdf_dir r r)).
    by rewrite lookup_insert_eq.
  - by rewrite lookup_insert_eq.
  - intros p Hp1 Hp2. by rewrite !lookup_insert_ne.
Qed.

(** C5. The call raises exactly when the source is missing, or is not a
    document that can be parsed, or the document of some descriptor with a
    valid range cannot be opened for writing; and the loop body raises
    exactly in the last case.  Bounds violations and failures on the
    companion file never raise. *)
Theorem fatal_failures (pdf_path : string) (page_ranges : list page_range)
    (offset : Z) (w : world) :
  (raises (extract_pages pdf_path page_ranges offset w) <->
   files w !! pdf_path = None \/
   (exists content, files w !! pdf_path = Some content /\ pdf_parse content = None) \/
   (exists content reader r,
      files w !! pdf_path = Some content /\ pdf_parse content = Some reader /\
      r ∈ page_ranges /\
      effective_range_valid (Z.of_nat (length reader)) offset r /\
      writable (document_path (pdf_dir_of pdf_path) r) = false)) /\
  (forall reader pdf_dir r w1,
     raises (loop_body reader (Z.of_nat (length reader)) pdf_dir offset r w1) <->
     effective_range_valid (Z.of_nat (length reader)) offset r /\
     writable (document_path pdf_dir r) = false).
Proof.
  split; [|intros; apply loop_body_raises].
  destruct (files w !! pdf_path) as [content|] eqn:Hf.
  2:{ rewrite extract_pages_missing by done. split; [by left|]. intros _. by eexists. }
  destruct (pdf_parse content) as [reader|] eqn:Hp.
  2:{ rewrite (extract_pages_unparsable _ _ _ _ _ Hf Hp). split.
      - intros _. right. left. by exists content.
      - intros _. by eexists. }
  rewrite (extract_pages_parsed _ _ _ _ _ _ Hf Hp).
  pose proof (for_each_raises reader (pdf_dir_of pdf_path) offset page_ranges
    (World (files w)
       (trace w ++ [EvParse pdf_path;
                    EvPrint (MsgTotalPages (Z.of_nat (length reader)))]))) as Hl.
  destruct (for_each _ _ _) as [w' [e|[]]].
  - split.
    + intros _. right. right. destruct Hl as [Hl _].
      destruct Hl as (r & ? & ? & ?); [by eexists|].
      by exists content, reader, r.
    + intros _. by eexists.
  - split; [by intros [e ?]|].
    intros [?|[(c & ? & ?)|(c & rd & r & ? & ? & ? & ? & ?)]]; simplify_eq.
    destruct Hl as [_ Hl]. apply Hl. by exists r.
Qed.

(** C6. A second call with the same arguments, on the world the first call
    left and with the source still what it was, ends with the same result and
    leaves every file as the first call left it; after calls that complete,
    the companion file of every processed descriptor is empty. *)
Theorem extract_idempotent (pdf_path : string) (page_ranges : list page_range)
    (offset : Z) (w : world) :
  files (extract_pages pdf_path page_ranges offset w).1 !! pdf_path
    = files w !! pdf_path ->
  let o1 := extract_pages pdf_path page_ranges offset w in
  let o2 := extract_pages pdf_path page_ranges offset o1.1 in
  files o2.1 = files o1.1 /\ o2.2 = o1.2 /\
  (o1.2 = inr tt ->
   forall content reader r,
     files w !! pdf_path = Some content -> pdf_parse content = Some reader ->
     r ∈ page_ranges ->
     effective_range_valid (Z.of_nat (length reader)) offset r ->
     writable (companion_path (pdf_dir_of pdf_path) r) = true ->
     files o1.1 !! companion_path (pdf_dir_of pdf_path) r = Some [] /\
     files o2.1 !! companion_path (pdf_dir_of pdf_path) r = Some []).
Proof.
  intros Hsrc o1 o2.
  destruct (extract_pages_again pdf_path page_ranges offset w Hsrc) as [Hfiles Hres].
  fold o1 in Hfiles, Hres. fold o2 in Hfiles, Hres.
  split; [done|split; [done|]].
  intros Hok content reader r Hf Hp Hin Hv Hmd.
  rewrite Hfiles.
  enough (files o1.1 !! companion_path (pdf_dir_of pdf_path) r = Some []) by done.
  revert Hok. unfold o1. rewrite (extract_pages_parsed _ _ _ _ _ _ Hf Hp).
  pose proof (for_each_companion_empty reader (pdf_dir_of pdf_path) offset
    page_ranges
    (World (files w)
       (trace w ++ [EvParse pdf_path;
                    EvPrint (MsgTotalPages (Z.of_nat (length reader)))])) r) as Hc.
  destruct (for_each _ _ _) as [w1 [e|[]]]; [done|]. intros _. by apply Hc.
Qed.

(** C7. When the source exists and is not a document that can be parsed,
    the call raises the read error, after the attempt to parse and the line
    that reports the error; it changes no file and opens no path for
    writing. *)
Theorem unparsable_source_aborts (pdf_path : string) (page_ranges : list page_range)
    (offset : Z) (w : world) (content : bytes) :
  files w !! pdf_path = Some content ->
  pdf_parse content = None ->
  let o := extract_pages pdf_path page_ranges offset w in
  o.2 = inl (PdfReadError pdf_path) /\
  files o.1 = files w /\
  new_events w o.1
    = [EvParse pdf_path; EvPrint (ErrProcessing (PdfReadError pdf_path))] /\
  forall p, EvOpenWrite p ∉ new_events w o.1.
Proof.
  intros Hf Hp. simpl. rewrite (extract_pages_unparsable _ _ _ _ _ Hf Hp).
  cbn [fst snd files]. rewrite new_events_app.
  repeat split. intros p Hin.
  repeat (apply elem_of_cons in Hin as [Hin|Hin]; [discriminate|]).
  by apply elem_of_nil in Hin.
Qed.

(** C8. When the companion file of a descriptor cannot be opened, the loop
    body prints the failure and does not raise: the document it has written
    is in place, and the loop goes on with the next descriptor. *)
Theorem companion_failure_not_fatal (reader : list page) (pdf_dir : string)
    (offset : Z) (r : page_range) (rest : list page_range) (w : world) :
  effective_range_valid (Z.of_nat (length reader)) offset r ->
  writable (document_path pdf_dir r) = true ->
  writable (companion_path pdf_dir r) = false ->
  let body := loop_body reader (Z.of_nat (length reader)) pdf_dir offset in
  let doc := document_path pdf_dir r in
  let md := companion_path pdf_dir r in
  (body r w).2 = inr tt /\
  files (body r w).1
    = <[doc := pdf_serialise (extracted_pages reader offset r)]> (files w) /\
  files (body r w).1 !! doc = Some (pdf_serialise (extracted_pages reader offset r)) /\
  new_events w (body r w).1
    = [EvOpenWrite doc; EvPrint (MsgSaved r.1.1 r.1.2 doc); EvOpenWrite md;
       EvPrint (ErrMarkdown md (OSError md))] /\
  for_each (r :: rest) body w = for_each rest body (body r w).1.
Proof.
  intros Hv Hd Hm. cbv zeta. rewrite for_each_cons.
  rewrite loop_body_valid by done.
  pose proof (processed_result reader pdf_dir offset r w) as Hres.
  pose proof (processed_files reader pdf_dir offset r w) as Hfiles.
  pose proof (processed_events reader pdf_dir offset r w) as Hev.
  simpl in Hfiles, Hev. rewrite Hd in Hres, Hfiles, Hev. rewrite Hm in Hfiles, Hev.
  destruct (processed reader pdf_dir offset r w) as [w1 res]. simpl in *.
  subst res. rewrite Hfiles. by rewrite lookup_insert_eq.
Qed.

(** C9. The test for the extension is case-sensitive: a name that ends with
    a variant of [.pdf] in another case, such as [.PDF], gets the literal
    [.pdf] appended, as in [Name.PDF.pdf]. *)
Theorem pdf_suffix_case_sensitive (name variant : string) :
  Str.lower variant = ".pdf" ->
  variant <> ".pdf" ->
  pdf_output_filename (name +:+ variant) = name +:+ variant +:+ ".pdf" /\
  pdf_output_filename "Name.PDF" = "Name.PDF.pdf".
Proof.
  intros Hlow Hne. split; [|done]. unfold pdf_output_filename.
  destruct (Str.endswith (name +:+ variant) ".pdf") eqn:E; simpl.
  - exfalso. apply Hne. apply endswith_spec in E as [p E].
    apply (app_suffix_inj _ _ _ _ E).
    by rewrite <- (lower_length variant), Hlow.
  - clear. induction name as [|a name IH]; [done|].
    rewrite !string_app_cons. by rewrite IH.
Qed.

(** C10. The companion file comes after the document: when the document of
    a descriptor cannot be opened the loop body raises, having opened nothing
    else and changed no file; and whenever the body opens the companion path,
    it has opened the document path before and the document is written. *)
Theorem companion_after_document (reader : list page) (pdf_dir : string)
    (offset : Z) (r : page_range) (w : world) :
  let o := loop_body reader (Z.of_nat (length reader)) pdf_dir offset r w in
  let doc := document_path pdf_dir r in
  let md := companion_path pdf_dir r in
  (effective_range_valid (Z.of_nat (length reader)) offset r ->
   writable doc = false ->
   o.2 = inl (OSError doc) /\ files o.1 = files w /\
   new_events w o.1 = [EvOpenWrite doc]) /\
  (EvOpenWrite md ∈ new_events w o.1 ->
   writable doc = true /\
   files o.1 !! doc = Some (pdf_serialise (extracted_pages reader offset r)) /\
   exists after,
     new_events w o.1
     = EvOpenWrite doc :: EvPrint (MsgSaved r.1.1 r.1.2 doc) :: EvOpenWrite md :: after).
Proof.
  cbv zeta. split.
  - intros Hv Hd. rewrite loop_body_valid by done.
    rewrite processed_result, processed_files, processed_events. simpl.
    by rewrite Hd.
  - destruct (effective_range_valid_dec (Z.of_nat (length reader)) offset r) as [Hv|Hv].
    + rewrite loop_body_valid by done.
      rewrite processed_files, processed_events. simpl.
      destruct (writable (document_path pdf_dir r)).
      * intros _. split; [done|]. split; [|by eexists].
        destruct (writable (companion_path pdf_dir r)); simpl.
        -- rewrite lookup_insert_ne
             by (intros E; by apply (document_companion_ne pdf_dir r r)).
           by rewrite lookup_insert_eq.
        -- by rewrite lookup_insert_eq.
      * intros Hin. apply list_elem_of_singleton in Hin.
        injection Hin as Hin. symmetry in Hin.
        by apply document_companion_ne in Hin.
    + rewrite loop_body_skip by done. cbn [fst snd]. rewrite new_events_log.
      intros Hin. apply list_elem_of_singleton in Hin. discriminate.
Qed.

(** ** Further properties of the code *)

Lemma string_app_assoc (a b c : string) : (a +:+ b) +:+ c = a +:+ (b +:+ c).
Proof.
  induction a as [|x a IH]; [done|]. rewrite !string_app_cons. by rewrite IH.
Qed.

Lemma string_app_inv_tail (a b t : string) : a +:+ t = b +:+ t -> a = b.
Proof.
  revert b. induction a as [|x a IH]; intros [|y b];
    rewrite ?string_app_nil, ?string_app_cons.
  - done.
  - intros E. apply (f_equal String.length) in E. simpl in E.
    rewrite string_length_app in E. lia.
  - intros E. apply (f_equal String.length) in E. simpl in E.
    rewrite string_length_app in E. lia.
  - intros [= -> E]. f_equal. by apply IH.
Qed.

Lemma endswith_app_l (a b s : string) :
  Str.endswith b s = true -> Str.endswith (a +:+ b) s = true.
Proof.
  intros [p ->]%endswith_spec. rewrite <- string_app_assoc. apply endswith_app.
Qed.

Lemma endswith_join (a b s : string) :
  Str.endswith b s = true -> Str.endswith (os_path.join a b) s = true.
Proof.
  intros H. unfold os_path.join.
  destruct (Str.startswith b "/"); [done|].
  destruct (_ || _); by repeat apply endswith_app_l.
Qed.

Lemma endswith_pdf_output_filename (base_filename : string) :
  Str.endswith (pdf_output_filename base_filename) ".pdf" = true.
Proof.
  unfold pdf_output_filename.
  destruct (Str.endswith base_filename ".pdf") eqn:E; simpl; [done|].
  apply endswith_app.
Qed.

Lemma range_accepted_spec (total_pages offset : Z) (r : page_range) :
  range_accepted total_pages offset r = true <->
  effective_range_valid total_pages offset r.
Proof.
  destruct r as [[start end_] base]. unfold range_accepted, effective_range_valid.
  destruct (Z.ltb_spec (start + offset) 1), (Z.ltb_spec (end_ + offset) 1),
    (Z.gtb_spec (start + offset) total_pages),
    (Z.gtb_spec (end_ + offset) total_pages),
    (Z.gtb_spec (start + offset) (end_ + offset)); simpl;
    split; try done; try lia.
Qed.

(** The files and the result of the loop body depend on the files of the
    world it starts from only, not on the trace. *)
Lemma loop_body_files_indep (reader : list page) (pdf_dir : string) (offset : Z)
    (r : page_range) (w w' : world) :
  files w = files w' ->
  files (loop_body reader (Z.of_nat (length reader)) pdf_dir offset r w).1
  = files (loop_body reader (Z.of_nat (length reader)) pdf_dir offset r w').1.
Proof.
  intros E.
  destruct (effective_range_valid_dec (Z.of_nat (length reader)) offset r) as [Hv|Hv].
  - by rewrite !loop_body_valid, !processed_files, E.
  - by rewrite !loop_body_skip.
Qed.

Lemma for_each_files_indep (reader : list page) (pdf_dir : string) (offset : Z)
    (rs : list page_range) (w w' : world) :
  files w = files w' ->
  files (for_each rs (loop_body reader (Z.of_nat (length reader)) pdf_dir offset) w).1
  = files (for_each rs (loop_body reader (Z.of_nat (length reader)) pdf_dir offset) w').1
  /\ (for_each rs (loop_body reader (Z.of_nat (length reader)) pdf_dir offset) w).2
     = (for_each rs (loop_body reader (Z.of_nat (length reader)) pdf_dir offset) w').2.
Proof.
  revert w w'. induction rs as [|r rs IH]; intros w w' E; [done|].
  rewrite !for_each_cons.
  pose proof (loop_body_files_indep reader pdf_dir offset r w w' E) as Hf.
  pose proof (loop_body_result reader pdf_dir offset r w w') as Hr.
  destruct (loop_body _ _ _ _ r w) as [w1 [e|[]]],
    (loop_body _ _ _ _ r w') as [w1' [e'|[]]]; simpl in *; try discriminate.
  - by injection Hr as ->.
  - by apply IH.
Qed.

(** The trace only grows, and the loop body opens the document path and then
    the companion path of a descriptor it accepts, and nothing else. *)
Lemma loop_body_trace (reader : list page) (pdf_dir : string) (offset : Z)
    (r : page_range) (w : world) :
  exists evs,
    trace (loop_body reader (Z.of_nat (length reader)) pdf_dir offset r w).1
    = trace w ++ evs /\
    opened_paths evs
    = if range_accepted (Z.of_nat (length reader)) offset r then
        if writable (document_path pdf_dir r)
        then [document_path pdf_dir r; companion_path pdf_dir r]
        else [document_path pdf_dir r]
      else [].
Proof.
  destruct (range_accepted (Z.of_nat (length reader)) offset r) eqn:Ha.
  - apply range_accepted_spec in Ha. rewrite loop_body_valid by done.
    unfold processed. destruct (writable (document_path pdf_dir r)).
    + destruct (writable (companion_path pdf_dir r)); simpl; by eexists.
    + exists [EvOpenWrite (document_path pdf_dir r)]. done.
  - rewrite loop_body_skip.
    + by eexists.
    + intros Hv. apply range_accepted_spec in Hv. congruence.
Qed.

Lemma for_each_frame_valid (reader : list page) (pdf_dir : string) (offset : Z)
    (rs : list page_range) (w : world) (p : string) :
  (forall r, r ∈ rs ->
     effective_range_valid (Z.of_nat (length reader)) offset r ->
     p <> document_path pdf_dir r /\ p <> companion_path pdf_dir r) ->
  files (for_each rs (loop_body reader (Z.of_nat (length reader)) pdf_dir offset) w).1
    !! p = files w !! p.
Proof.
  revert w. induction rs as [|r rs IH]; intros w Hp; [done|].
  rewrite for_each_cons.
  assert (files (loop_body reader (Z.of_nat (length reader)) pdf_dir offset r w).1 !! p
          = files w !! p) as Hb.
  { destruct (effective_range_valid_dec (Z.of_nat (length reader)) offset r) as [Hv|Hv].
    - destruct (Hp r) as [H1 H2]; [left|done|]. by apply loop_body_frame.
    - by rewrite loop_body_skip. }
  destruct (loop_body _ _ _ _ r w) as [w1 [e|[]]]; simpl in *; [done|].
  rewrite IH; [done|]. intros r' Hr'. apply Hp. by right.
Qed.

Lemma extract_pages_files_cases (pdf_path : string) (page_ranges : list page_range)
    (offset : Z) (w : world) :
  files (extract_pages pdf_path page_ranges offset w).1 = files w \/
  exists content reader,
    files w !! pdf_path = Some content /\ pdf_parse content = Some reader /\
    files (extract_pages pdf_path page_ranges offset w).1
    = files (for_each page_ranges
               (loop_body reader (Z.of_nat (length reader)) (pdf_dir_of pdf_path) offset)
               (World (files w)
                  (trace w ++ [EvParse pdf_path;
                               EvPrint (MsgTotalPages (Z.of_nat (length reader)))]))).1.
Proof.
  destruct (files w !! pdf_path) as [content|] eqn:Hf.
  2:{ left. by rewrite extract_pages_missing. }
  destruct (pdf_parse content) as [reader|] eqn:Hp.
  2:{ left. by rewrite (extract_pages_unparsable _ _ _ _ _ Hf Hp). }
  right. exists content, reader. split; [done|split; [done|]].
  rewrite (extract_pages_parsed _ _ _ _ _ _ Hf Hp).
  by destruct (for_each _ _ _) as [w' [e|[]]].
Qed.


(** X2. The call changes the content of no path but paths that end with
    [.pdf] or with [.md]. *)
Theorem extract_pages_changes_pdf_md_only (pdf_path : string)
    (page_ranges : list page_range) (offset : Z) (w : world) (p : string) :
  files (extract_pages pdf_path page_ranges offset w).1 !! p <> files w !! p ->
  Str.endswith p ".pdf" = true \/ Str.endswith p ".md" = true.
Proof.
  intros Hne.
  destruct (Str.endswith p ".pdf") eqn:E1; [by left|].
  destruct (Str.endswith p ".md") eqn:E2; [by right|].
  exfalso. apply Hne.
  destruct (extract_pages_files_cases pdf_path page_ranges offset w)
    as [->|(content & reader & Hf & Hparse & ->)]; [done|].
  rewrite for_each_frame_valid; [done|]. intros r _ _. split; intros ->.
  - unfold document_path in E1.
    rewrite endswith_join in E1; [done|apply endswith_pdf_output_filename].
  - unfold companion_path, md_output_filename in E2.
    rewrite endswith_join in E2; [done|apply endswith_app].
Qed.

Lemma loop_body_keeps_files (reader : list page) (pdf_dir : string) (offset : Z)
    (r : page_range) (w : world) (p : string) :
  is_Some (files w !! p) ->
  is_Some (files (loop_body reader (Z.of_nat (length reader)) pdf_dir offset r w).1 !! p).
Proof.
  intros Hp.
  destruct (effective_range_valid_dec (Z.of_nat (length reader)) offset r) as [Hv|Hv].
  - rewrite loop_body_valid, processed_files by done.
    repeat destruct (writable _); simpl; rewrite ?lookup_insert_is_Some'; auto.
  - by rewrite loop_body_skip.
Qed.

Lemma for_each_keeps_files (reader : list page) (pdf_dir : string) (offset : Z)
    (rs : list page_range) (w : world) (p : string) :
  is_Some (files w !! p) ->
  is_Some (files (for_each rs
             (loop_body reader (Z.of_nat (length reader)) pdf_dir offset) w).1 !! p).
Proof.
  revert w. induction rs as [|r rs IH]; intros w Hw; [done|].
  rewrite for_each_cons.
  pose proof (loop_body_keeps_files reader pdf_dir offset r w p Hw) as Hb.
  destruct (loop_body _ _ _ _ r w) as [w1 [e|[]]]; simpl in *; auto.
Qed.

(** X3. The call deletes nothing: a path that holds a file before the call
    holds a file after it, whatever the outcome. *)
Theorem extract_pages_deletes_nothing (pdf_path : string)
    (page_ranges : list page_range) (offset : Z) (w : world) (p : string) :
  is_Some (files w !! p) ->
  is_Some (files (extract_pages pdf_path page_ranges offset w).1 !! p).
Proof.
  intros Hp.
  destruct (extract_pages_files_cases pdf_path page_ranges offset w)
    as [->|(content & reader & Hf & Hparse & ->)]; [done|].
  by apply for_each_keeps_files.
Qed.

Lemma loop_body_shift (reader : list page) (pdf_dir : string) (offset : Z)
    (r : page_range) (w w' : world) :
  files w = files w' ->
  files (loop_body reader (Z.of_nat (length reader)) pdf_dir offset r w).1
  = files (loop_body reader (Z.of_nat (length reader)) pdf_dir 0
             (r.1.1 + offset, r.1.2 + offset, r.2) w').1 /\
  (loop_body reader (Z.of_nat (length reader)) pdf_dir offset r w).2
  = (loop_body reader (Z.of_nat (length reader)) pdf_dir 0
       (r.1.1 + offset, r.1.2 + offset, r.2) w').2.
Proof.
  intros E. destruct r as [[start end_] base]. cbn [fst snd].
  destruct (effective_range_valid_dec (Z.of_nat (length reader)) offset
              (start, end_, base)) as [Hv|Hv].
  - assert (effective_range_valid (Z.of_nat (length reader)) 0
              (start + offset, end_ + offset, base)) as Hv'.
    { unfold effective_range_valid in *. lia. }
    rewrite !loop_body_valid, !processed_files, !processed_result by done.
    unfold document_path, companion_path, extracted_pages. simpl.
    by rewrite !Z.add_0_r, E.
  - assert (~ effective_range_valid (Z.of_nat (length reader)) 0
              (start + offset, end_ + offset, base)) as Hv'.
    { unfold effective_range_valid in *. lia. }
    by rewrite !loop_body_skip.
Qed.

Lemma for_each_shift (reader : list page) (pdf_dir : string) (offset : Z)
    (rs : list page_range) (w w' : world) :
  files w = files w' ->
  files (for_each rs (loop_body reader (Z.of_nat (length reader)) pdf_dir offset) w).1
  = files (for_each (shift_ranges offset rs)
             (loop_body reader (Z.of_nat (length reader)) pdf_dir 0) w').1 /\
  (for_each rs (loop_body reader (Z.of_nat (length reader)) pdf_dir offset) w).2
  = (for_each (shift_ranges offset rs)
       (loop_body reader (Z.of_nat (length reader)) pdf_dir 0) w').2.
Proof.
  revert w w'. induction rs as [|r rs IH]; intros w w' E; [done|].
  unfold shift_ranges. rewrite fmap_cons. fold (shift_ranges offset rs).
  rewrite !for_each_cons.
  destruct (loop_body_shift reader pdf_dir offset r w w' E) as [Hf Hr].
  destruct (loop_body _ _ _ offset r w) as [w1 [e|[]]],
    (loop_body _ _ _ 0 _ w') as [w1' [e'|[]]]; simpl in *; try discriminate.
  - by injection Hr as ->.
  - by apply IH.
Qed.

(** X4. The offset is nothing but a shift of the bounds: a call with an
    offset leaves the files, and ends with the result, of the call without
    offset on the descriptors whose bounds have the offset added. *)
Theorem extract_pages_offset_shift (pdf_path : string)
    (page_ranges : list page_range) (offset : Z) (w : world) :
  files (extract_pages pdf_path page_ranges offset w).1
  = files (extract_pages pdf_path (shift_ranges offset page_ranges) 0 w).1 /\
  (extract_pages pdf_path page_ranges offset w).2
  = (extract_pages pdf_path (shift_ranges offset page_ranges) 0 w).2.
Proof.
  destruct (files w !! pdf_path) as [content|] eqn:Hf.
  2:{ by rewrite !extract_pages_missing. }
  destruct (pdf_parse content) as [reader|] eqn:Hp.
  2:{ by rewrite !(extract_pages_unparsable _ _ _ _ _ Hf Hp). }
  rewrite !(extract_pages_parsed _ _ _ _ _ _ Hf Hp).
  match goal with
  | |- context [for_each page_ranges _ ?w0] =>
      destruct (for_each_shift reader (pdf_dir_of pdf_path) offset page_ranges
                  w0 w0 eq_refl) as [Hfiles Hres]
  end.
  destruct (for_each page_ranges _ _) as [w1 [e|[]]],
    (for_each (shift_ranges offset page_ranges) _ _) as [w1' [e'|[]]];
    simpl in *; try discriminate; [|done].
  by injection Hres as ->.
Qed.

(** X5. Descriptors compose: when the call on a first list completes and
    the source is what it was, the call on the first list followed by a
    second leaves the files, and ends with the result, of the call on the
    second list made after the call on the first. *)
Theorem extract_pages_app (pdf_path : string) (rs1 rs2 : list page_range)
    (offset : Z) (w : world) :
  (extract_pages pdf_path rs1 offset w).2 = inr tt ->
  files (extract_pages pdf_path rs1 offset w).1 !! pdf_path = files w !! pdf_path ->
  files (extract_pages pdf_path (rs1 ++ rs2) offset w).1
  = files (extract_pages pdf_path rs2 offset
             (extract_pages pdf_path rs1 offset w).1).1 /\
  (extract_pages pdf_path (rs1 ++ rs2) offset w).2
  = (extract_pages pdf_path rs2 offset (extract_pages pdf_path rs1 offset w).1).2.
Proof.
  destruct (files w !! pdf_path) as [content|] eqn:Hf.
  2:{ by rewrite !extract_pages_missing. }
  destruct (pdf_parse content) as [reader|] eqn:Hp.
  2:{ by rewrite !(extract_pages_unparsable _ _ _ _ _ Hf Hp). }
  rewrite !(extract_pages_parsed _ _ _ _ _ _ Hf Hp), for_each_app.
  destruct (for_each rs1 _ _) as [w1 [e|[]]]; [done|]. cbn [fst snd].
  intros _ Hsrc. rewrite (extract_pages_parsed _ _ _ _ _ _ Hsrc Hp).
  match goal with
  | |- context [for_each rs2 _ (World (files w1) ?t)] =>
      destruct (for_each_files_indep reader (pdf_dir_of pdf_path) offset rs2
                  w1 (World (files w1) t) eq_refl) as [Hfiles Hres]
  end.
  destruct (for_each rs2 _ w1) as [w2 [e|[]]],
    (for_each rs2 _ (World _ _)) as [w2' [e'|[]]];
    simpl in *; try discriminate; [|done].
  by injection Hres as ->.
Qed.

(** X6. A call that raises stops there: descriptors that follow in the list
    change nothing of the outcome, neither the files nor the trace nor the
    exception. *)
Theorem extract_pages_stops_at_failure (pdf_path : string)
    (rs1 rs2 : list page_range) (offset : Z) (w : world) :
  raises (extract_pages pdf_path rs1 offset w) ->
  extract_pages pdf_path (rs1 ++ rs2) offset w = extract_pages pdf_path rs1 offset w.
Proof.
  destruct (files w !! pdf_path) as [content|] eqn:Hf.
  2:{ by rewrite !extract_pages_missing. }
  destruct (pdf_parse content) as [reader|] eqn:Hp.
  2:{ by rewrite !(extract_pages_unparsable _ _ _ _ _ Hf Hp). }
  rewrite !(extract_pages_parsed _ _ _ _ _ _ Hf Hp), for_each_app.
  destruct (for_each rs1 _ _) as [w1 [e|[]]]; [done|].
  by intros [e ?].
Qed.

(** X7. The warning names the first check that fails, in the order of the
    source: a bound below one, then a bound beyond the page count, then a
    start after the end; it carries the bounds as requested and the
    offset. *)
Theorem skip_reason (reader : list page) (total_pages : Z) (pdf_dir : string)
    (offset start end_ : Z) (base_filename : string) (w : world) :
  let o := loop_body reader total_pages pdf_dir offset (start, end_, base_filename) w in
  (start + offset < 1 \/ end_ + offset < 1 ->
   o = (log (EvPrint (WarnBelowOne start end_ offset)) w, inr tt)) /\
  (1 <= start + offset -> 1 <= end_ + offset ->
   start + offset > total_pages \/ end_ + offset > total_pages ->
   o = (log (EvPrint (WarnBeyondTotal start end_ offset total_pages)) w, inr tt)) /\
  (1 <= end_ + offset -> end_ + offset < start + offset ->
   start + offset <= total_pages ->
   o = (log (EvPrint (WarnInverted start end_ offset)) w, inr tt)).
Proof.
  cbv zeta. unfold loop_body.
  destruct (Z.ltb_spec (start + offset) 1), (Z.ltb_spec (end_ + offset) 1),
    (Z.gtb_spec (start + offset) total_pages),
    (Z.gtb_spec (end_ + offset) total_pages),
    (Z.gtb_spec (start + offset) (end_ + offset)); simpl;
    repeat split; intros; try done; lia.
Qed.

(** X8. Two names give the same document filename exactly when they are
    equal or one is the other, which lacks the extension, with [.pdf]
    appended; two names give the same companion filename only when they are
    equal. *)
Theorem filename_collisions (n1 n2 : string) :
  (pdf_output_filename n1 = pdf_output_filename n2 <->
   n1 = n2 \/
   (Str.endswith n2 ".pdf" = false /\ n1 = n2 +:+ ".pdf") \/
   (Str.endswith n1 ".pdf" = false /\ n2 = n1 +:+ ".pdf")) /\
  (md_output_filename n1 = md_output_filename n2 <-> n1 = n2).
Proof.
  split.
  - unfold pdf_output_filename.
    destruct (Str.endswith n1 ".pdf") eqn:E1, (Str.endswith n2 ".pdf") eqn:E2; simpl.
    + split; [by left|]. by intros [?|[[? _]|[? _]]].
    + split; [by right; left|]. intros [->|[[_ ?]|[? _]]]; [congruence|done..].
    + split; [by right; right|]. intros [->|[[? _]|[_ ?]]]; [congruence|done..].
    + split.
      * intros E%string_app_inv_tail. by left.
      * intros [->|[[_ ->]|[_ ->]]]; [done|..].
        -- by rewrite endswith_app in E1.
        -- by rewrite endswith_app in E2.
  - unfold md_output_filename. split; [apply string_app_inv_tail|by intros ->].
Qed.

(** X9. A document filename always ends with [.pdf], and deriving the
    filename of a document filename changes nothing. *)
Theorem document_filename_normal (base_filename : string) :
  Str.endswith (pdf_output_filename base_filename) ".pdf" = true /\
  pdf_output_filename (pdf_output_filename base_filename)
  = pdf_output_filename base_filename.
Proof.
  split; [apply endswith_pdf_output_filename|].
  unfold pdf_output_filename at 1.
  by rewrite endswith_pdf_output_filename.
Qed.

(** X10. With no descriptor the source is checked all the same: the call
    completes exactly when the source exists and is a document, and it
    never changes a file. *)
Theorem extract_pages_no_ranges (pdf_path : string) (offset : Z) (w : world) :
  files (extract_pages pdf_path [] offset w).1 = files w /\
  ((extract_pages pdf_path [] offset w).2 = inr tt <->
   exists content reader,
     files w !! pdf_path = Some content /\ pdf_parse content = Some reader).
Proof.
  destruct (files w !! pdf_path) as [content|] eqn:Hf.
  2:{ rewrite extract_pages_missing by done. split; [done|].
      split; [done|]. by intros (? & ? & ? & _). }
  destruct (pdf_parse content) as [reader|] eqn:Hp.
  2:{ rewrite (extract_pages_unparsable _ _ _ _ _ Hf Hp). split; [done|].
      split; [done|]. intros (? & ? & ? & ?). congruence. }
  rewrite (extract_pages_parsed _ _ _ _ _ _ Hf Hp). simpl. split; [done|].
  split; [|done]. intros _. by exists content, reader.
Qed.

Lemma source_pages_app (reader : list page) (a b c : Z) :
  1 <= a -> a <= b + 1 -> b <= c ->
  source_pages reader a b ++ source_pages reader (b + 1) c = source_pages reader a c.
Proof.
  intros H1 H2 H3. unfold source_pages.
  replace (Z.to_nat (b + 1 - 1)) with (Z.to_nat (a - 1) + Z.to_nat (b - a + 1))%nat
    by lia.
  rewrite <- drop_drop, take_take_drop. f_equal. lia.
Qed.

Lemma chained_le (first last : Z) (rs : list page_range) :
  chained first last rs -> first <= last + 1.
Proof.
  revert first. induction rs as [|r rs IH]; intros first; simpl.
  - lia.
  - intros (_ & H1 & H2%IH). lia.
Qed.

Lemma chained_partition (reader : list page) (offset first last : Z)
    (rs : list page_range) :
  chained first last rs ->
  1 <= first + offset ->
  last + offset <= Z.of_nat (length reader) ->
  (forall r, r ∈ rs -> effective_range_valid (Z.of_nat (length reader)) offset r) /\
  concat (extracted_pages reader offset <$> rs)
  = source_pages reader (first + offset) (last + offset).
Proof.
  revert first. induction rs as [|r rs IH]; intros first Hc H1 H2.
  - simpl in *. split; [by intros r ?%elem_of_nil|].
    unfold source_pages. by replace (last + offset - (first + offset) + 1) with 0 by lia.
  - destruct Hc as (Hs & He & Hc). pose proof (chained_le _ _ _ Hc) as Hle.
    destruct (IH (r.1.2 + 1) Hc) as [IHv IHc]; [lia..|].
    split.
    + intros r' [->|Hr']%elem_of_cons; [|by apply IHv].
      clear IHv IHc. destruct r as [[s e] n]. simpl in *.
      unfold effective_range_valid. lia.
    + rewrite fmap_cons. simpl. rewrite IHc. unfold extracted_pages. rewrite Hs.
      replace (r.1.2 + 1 + offset) with (r.1.2 + offset + 1) by lia.
      apply source_pages_app; lia.
Qed.


Lemma expected_opens_cons (total_pages offset : Z) (pdf_dir : string)
    (r : page_range) (rs : list page_range) :
  expected_opens total_pages offset pdf_dir (r :: rs)
  = (if range_accepted total_pages offset r
     then [document_path pdf_dir r; companion_path pdf_dir r] else [])
    ++ expected_opens total_pages offset pdf_dir rs.
Proof.
  unfold expected_opens. simpl. by destruct (range_accepted _ _ r).
Qed.

Lemma opened_paths_app (evs1 evs2 : list event) :
  opened_paths (evs1 ++ evs2) = opened_paths evs1 ++ opened_paths evs2.
Proof. apply omap_app. Qed.

Lemma for_each_trace (reader : list page) (pdf_dir : string) (offset : Z)
    (rs : list page_range) (w : world) :
  exists evs,
    trace (for_each rs (loop_body reader (Z.of_nat (length reader)) pdf_dir offset) w).1
    = trace w ++ evs /\
    opened_paths evs
      `prefix_of` expected_opens (Z.of_nat (length reader)) offset pdf_dir rs /\
    ((for_each rs (loop_body reader (Z.of_nat (length reader)) pdf_dir offset) w).2
       = inr tt ->
     opened_paths evs = expected_opens (Z.of_nat (length reader)) offset pdf_dir rs).
Proof.
  revert w. induction rs as [|r rs IH]; intros w.
  { exists []. simpl. by rewrite app_nil_r. }
  rewrite for_each_cons, expected_opens_cons.
  destruct (loop_body_trace reader pdf_dir offset r w) as (evs1 & Ht1 & Ho1).
  pose proof (loop_body_raises reader pdf_dir offset r w) as Hr.
  rewrite <- range_accepted_spec in Hr.
  destruct (loop_body _ _ _ _ r w) as [w1 [e|[]]]; simpl in *.
  - exists evs1. split; [done|]. split; [|done].
    destruct Hr as [Hr _]. destruct Hr as [Ha Hw]; [by eexists|].
    rewrite Ho1, Ha, Hw. eexists. reflexivity.
  - destruct (IH w1) as (evs2 & Ht2 & Hp2 & Ho2).
    exists (evs1 ++ evs2). rewrite Ht2, Ht1, app_assoc. split; [done|].
    rewrite opened_paths_app, Ho1.
    assert ((if range_accepted (Z.of_nat (length reader)) offset r
             then if writable (document_path pdf_dir r)
                  then [document_path pdf_dir r; companion_path pdf_dir r]
                  else [document_path pdf_dir r]
             else [])
            = (if range_accepted (Z.of_nat (length reader)) offset r
               then [document_path pdf_dir r; companion_path pdf_dir r] else [])) as ->.
    { destruct (range_accepted _ _ r); [|done].
      destruct (writable (document_path pdf_dir r)); [done|].
      destruct Hr as [_ Hr]. destruct Hr as [e He]; [done|discriminate]. }
    split; [by apply prefix_app|]. intros Hok. by rewrite Ho2.
Qed.

Lemma extract_pages_trace (pdf_path : string) (page_ranges : list page_range)
    (offset : Z) (w : world) (content : bytes) (reader : list page) :
  files w !! pdf_path = Some content ->
  pdf_parse content = Some reader ->
  opened_paths (new_events w (extract_pages pdf_path page_ranges offset w).1)
    `prefix_of` expected_opens (Z.of_nat (length reader)) offset
                  (pdf_dir_of pdf_path) page_ranges /\
  ((extract_pages pdf_path page_ranges offset w).2 = inr tt ->
   opened_paths (new_events w (extract_pages pdf_path page_ranges offset w).1)
   = expected_opens (Z.of_nat (length reader)) offset (pdf_dir_of pdf_path) page_ranges).
Proof.
  intros Hf Hp. rewrite (extract_pages_parsed _ _ _ _ _ _ Hf Hp).
  match goal with
  | |- context [for_each page_ranges _ ?w0] =>
      destruct (for_each_trace reader (pdf_dir_of pdf_path) offset page_ranges w0)
        as (evs & Ht & Hpre & Hok)
  end.
  destruct (for_each page_ranges _ _) as [w1 [e|[]]]; simpl in *.
  - unfold new_events, log. simpl. rewrite Ht, <- !app_assoc, drop_app_length.
    simpl. rewrite opened_paths_app. simpl. by rewrite app_nil_r.
  - unfold new_events. rewrite Ht, <- !app_assoc, drop_app_length. simpl.
    split; [done|]. intros _. by apply Hok.
Qed.

(** X12. The paths are opened in the order of the descriptors, the document
    of a descriptor before its companion: the paths a call opens for writing
    are an initial part of the list of the two paths of each descriptor that
    passes the checks, and the whole list when the call completes. *)
Theorem extract_pages_open_order (pdf_path : string) (page_ranges : list page_range)
    (offset : Z) (w : world) (content : bytes) (reader : list page) :
  files w !! pdf_path = Some content ->
  pdf_parse content = Some reader ->
  let o := extract_pages pdf_path page_ranges offset w in
  opened_paths (new_events w o.1)
    `prefix_of` expected_opens (Z.of_nat (length reader)) offset
                  (pdf_dir_of pdf_path) page_ranges /\
  (o.2 = inr tt ->
   opened_paths (new_events w o.1)
   = expected_opens (Z.of_nat (length reader)) offset (pdf_dir_of pdf_path) page_ranges).
Proof. intros Hf Hp. exact (extract_pages_trace _ _ _ _ _ _ Hf Hp). Qed.

Lemma expected_opens_no_pages (offset : Z) (pdf_dir : string) (rs : list page_range) :
  expected_opens 0 offset pdf_dir rs = [].
Proof.
  induction rs as [|r rs IH]; [done|]. rewrite expected_opens_cons, IH.
  destruct (range_accepted 0 offset r) eqn:Ha; [|done].
  apply range_accepted_spec in Ha. destruct r as [[s e] n].
  unfold effective_range_valid in Ha. lia.
Qed.

(** X13. On a source with no page every descriptor is skipped: the call
    completes, changes no file and opens no path for writing. *)
Theorem extract_pages_no_pages (pdf_path : string) (page_ranges : list page_range)
    (offset : Z) (w : world) (content : bytes) :
  files w !! pdf_path = Some content ->
  pdf_parse content = Some [] ->
  let o := extract_pages pdf_path page_ranges offset w in
  o.2 = inr tt /\ files o.1 = files w /\ opened_paths (new_events w o.1) = [].
Proof.
  intros Hf Hp. cbv zeta.
  assert (forall r : page_range,
            ~ effective_range_valid (Z.of_nat (length (@nil page))) offset r) as Hinv.
  { intros [[s e] n]. unfold effective_range_valid. simpl. lia. }
  assert ((extract_pages pdf_path page_ranges offset w).2 = inr tt) as Hok.
  { destruct ((extract_pages pdf_path page_ranges offset w).2) as [e|[]] eqn:E; [|done].
    exfalso.
    assert (raises (extract_pages pdf_path page_ranges offset w)) as Hr by (by exists e).
    revert Hr. rewrite (extract_pages_parsed _ _ _ _ _ _ Hf Hp).
    match goal with
    | |- context [for_each page_ranges _ ?w0] =>
        pose proof (for_each_raises [] (pdf_dir_of pdf_path) offset page_ranges w0) as Hl
    end.
    destruct (for_each page_ranges _ _) as [w1 [e'|[]]]; [|by intros [? ?]].
    intros _. destruct Hl as [Hl _]. destruct Hl as (r & _ & Hv & _); [by eexists|].
    by apply (Hinv r). }
  split; [done|]. split.
  - apply map_eq. intros p.
    destruct (extract_pages_files_cases pdf_path page_ranges offset w)
      as [->|(c & rd & Hf' & Hp' & ->)]; [done|].
    assert (rd = []) as -> by congruence.
    rewrite for_each_frame_valid; [done|]. intros r _ Hv. by apply Hinv in Hv.
  - destruct (extract_pages_trace pdf_path page_ranges offset w content [] Hf Hp)
      as [_ Hall].
    rewrite Hall by done. apply expected_opens_no_pages.
Qed.

Lemma for_each_documents (reader : list page) (pdf_dir : string) (offset : Z)
    (rs : list page_range) (w : world) (r : page_range) :
  (for_each rs (loop_body reader (Z.of_nat (length reader)) pdf_dir offset) w).2
    = inr tt ->
  NoDup (document_path pdf_dir
           <$> List.filter (range_accepted (Z.of_nat (length reader)) offset) rs) ->
  r ∈ rs ->
  effective_range_valid (Z.of_nat (length reader)) offset r ->
  files (for_each rs (loop_body reader (Z.of_nat (length reader)) pdf_dir offset) w).1
    !! document_path pdf_dir r
  = Some (pdf_serialise (extracted_pages reader offset r)).
Proof.
  revert w. induction rs as [|r0 rs IH]; intros w Hres Hnd Hin Hv.
  { by apply elem_of_nil in Hin. }
  rewrite for_each_cons in Hres |- *.
  pose proof (loop_body_raises reader pdf_dir offset r0 w) as Hr.
  pose proof (loop_body_valid reader pdf_dir offset r0 w) as Hp.
  pose proof (for_each_frame reader pdf_dir offset rs) as Hfr.
  simpl in Hnd.
  destruct (loop_body _ _ _ _ r0 w) as [w1 [e|[]]]; [done|].
  destruct (decide (r ∈ rs)) as [Hin'|Hin'].
  { apply IH; try done.
    destruct (range_accepted _ _ r0); [|done]. by apply NoDup_cons in Hnd as [_ ?]. }
  apply elem_of_cons in Hin as [->|]; [|done].
  pose proof Hv as Ha. apply range_accepted_spec in Ha. rewrite Ha in Hnd.
  rewrite fmap_cons in Hnd. apply NoDup_cons in Hnd as [Hnotin _].
  rewrite Hfr.
  - specialize (Hp Hv).
    assert (files w1 = files (processed reader pdf_dir offset r0 w).1) as ->
      by (by rewrite <- Hp).
    rewrite processed_files.
    destruct (writable (document_path pdf_dir r0)) eqn:Hd.
    + destruct (writable (companion_path pdf_dir r0)); simpl.
      * rewrite lookup_insert_ne
          by (intros E; by apply (document_companion_ne pdf_dir r0 r0)).
        by rewrite lookup_insert_eq.
      * by rewrite lookup_insert_eq.
    + destruct Hr as [_ Hr]. destruct Hr as [e He]; [done|discriminate].
  - intros r' Hr' Hv' E. apply Hnotin. rewrite E.
    apply list_elem_of_fmap. exists r'. split; [done|].
    apply list_elem_of_In, filter_In. split; [by apply list_elem_of_In|].
    by apply range_accepted_spec.
  - intros r' _. apply document_companion_ne.
Qed.

(** X14. When the call completes and the descriptors with a valid range
    have document paths that differ from one another, every one of them has
    its document in place with its pages, and an empty companion where the
    companion path could be opened. *)
Theorem extract_pages_all_documents (pdf_path : string)
    (page_ranges : list page_range) (offset : Z) (w : world)
    (content : bytes) (reader : list page) (r : page_range) :
  files w !! pdf_path = Some content ->
  pdf_parse content = Some reader ->
  (extract_pages pdf_path page_ranges offset w).2 = inr tt ->
  NoDup (document_path (pdf_dir_of pdf_path)
           <$> List.filter (range_accepted (Z.of_nat (length reader)) offset)
                 page_ranges) ->
  r ∈ page_ranges ->
  effective_range_valid (Z.of_nat (length reader)) offset r ->
  files (extract_pages pdf_path page_ranges offset w).1
    !! document_path (pdf_dir_of pdf_path) r
  = Some (pdf_serialise (extracted_pages reader offset r)) /\
  (writable (companion_path (pdf_dir_of pdf_path) r) = true ->
   files (extract_pages pdf_path page_ranges offset w).1
     !! companion_path (pdf_dir_of pdf_path) r = Some []).
Proof.
  intros Hf Hp. rewrite (extract_pages_parsed _ _ _ _ _ _ Hf Hp).
  match goal with
  | |- context [for_each page_ranges _ ?w0] =>
      pose proof (for_each_documents reader (pdf_dir_of pdf_path) offset
                    page_ranges w0 r) as Hdoc;
      pose proof (for_each_companion_empty reader (pdf_dir_of pdf_path) offset
                    page_ranges w0 r) as Hmd
  end.
  destruct (for_each page_ranges _ _) as [w1 [e|[]]]; [done|]. simpl in *.
  intros _ Hnd Hin Hv. split; [by apply Hdoc|]. intros Hw. by apply Hmd.
Qed.



(** ** The caller *)


Lemma filter_all_accepted (total_pages offset : Z) (rs : list page_range) :
  (forall r, r ∈ rs -> effective_range_valid total_pages offset r) ->
  List.filter (range_accepted total_pages offset) rs = rs.
Proof.
  induction rs as [|r rs IH]; intros Hall; [done|]. simpl.
  assert (range_accepted total_pages offset r = true) as ->.
  { apply range_accepted_spec, Hall. left. }
  f_equal. apply IH. intros r' Hr'. apply Hall. by right.
Qed.

Lemma main_page_ranges_chained : chained 46 1350 main_page_ranges.
Proof. simpl. repeat split; lia. Qed.

Lemma main_documents_differ :
  NoDup (document_path (pdf_dir_of main_pdf_path) <$> main_page_ranges).
Proof. apply (bool_decide_unpack _). vm_compute. exact I. Qed.

(** X16. On a source of at least 1350 pages whose twelve document paths
    can be opened, [main] ends with the line of completion, every chapter
    has its document in place with its pages, and the twelve documents, one
    after the other, hold the pages 46 to 1350 of the source, each page
    once. *)
Theorem main_chapters (w : world) (content : bytes) (reader : list page) :
  files w !! main_pdf_path = Some content ->
  pdf_parse content = Some reader ->
  1350 <= Z.of_nat (length reader) ->
  (forall r, r ∈ main_page_ranges ->
     writable (document_path (pdf_dir_of main_pdf_path) r) = true) ->
  (main w).2 = inr MainDone /\
  (forall r, r ∈ main_page_ranges ->
     files (main w).1 !! document_path (pdf_dir_of main_pdf_path) r
     = Some (pdf_serialise (extracted_pages reader 0 r))) /\
  concat (extracted_pages reader 0 <$> main_page_ranges) = source_pages reader 46 1350.
Proof.
  intros Hf Hp Hlen Hw.
  destruct (chained_partition reader 0 46 1350 main_page_ranges
              main_page_ranges_chained) as [Hvalid Hconcat]; [lia..|].
  assert ((extract_pages main_pdf_path main_page_ranges 0 w).2 = inr tt) as Hok.
  { destruct ((extract_pages main_pdf_path main_page_ranges 0 w).2) as [e|[]] eqn:E;
      [|done].
    exfalso. revert E. rewrite (extract_pages_parsed _ _ _ _ _ _ Hf Hp).
    match goal with
    | |- context [for_each main_page_ranges _ ?w0] =>
        pose proof (for_each_raises reader (pdf_dir_of main_pdf_path) 0
                      main_page_ranges w0) as Hl
    end.
    destruct (for_each main_page_ranges _ _) as [w1 [e'|[]]]; [|done].
    intros _. destruct Hl as [Hl _]. destruct Hl as (r & Hr & _ & Hd); [by eexists|].
    rewrite Hw in Hd by done. discriminate. }
  assert (forall r, r ∈ main_page_ranges ->
    files (extract_pages main_pdf_path main_page_ranges 0 w).1
      !! document_path (pdf_dir_of main_pdf_path) r
    = Some (pdf_serialise (extracted_pages reader 0 r))) as Hdocs.
  { intros r Hr. revert Hok. rewrite (extract_pages_parsed _ _ _ _ _ _ Hf Hp).
    match goal with
    | |- context [for_each main_page_ranges _ ?w0] =>
        pose proof (for_each_documents reader (pdf_dir_of main_pdf_path) 0
                      main_page_ranges w0 r) as Hdoc
    end.
    destruct (for_each main_page_ranges _ _) as [w1 [e|[]]]; [done|].
    cbn [fst snd] in *.
    intros _. apply Hdoc; [done| |done|by apply Hvalid].
    rewrite filter_all_accepted by done. apply main_documents_differ. }
  split; [|split; [|exact Hconcat]].
  - unfold main, try_except, bind, ret.
    by destruct (extract_pages main_pdf_path main_page_ranges 0 w) as [w' [e|[]]].
  - intros r Hr. rewrite <- (Hdocs r Hr). f_equal. f_equal.
    unfold main, try_except, bind, ret.
    by destruct (extract_pages main_pdf_path main_page_ranges 0 w) as [w' [e|[]]].
Qed.

End ExtraPage.

(** ** Examples *)

Example dirname_nested : os_path.dirname "a/b/c.pdf" = "a/b".
Proof. reflexivity. Qed.

Example dirname_bare : pdf_dir_of "c.pdf" = ".".
Proof. reflexivity. Qed.

Example dirname_root : os_path.dirname "/c.pdf" = "/".
Proof. reflexivity. Qed.

Example join_relative : os_path.join "." "x.pdf" = "./x.pdf".
Proof. reflexivity. Qed.

Example join_absolute : os_path.join "a" "/x.pdf" = "/x.pdf".
Proof. reflexivity. Qed.

Example extension_upper : os_path.extension "a.b/scan.tar.PDF" = ".PDF".
Proof. reflexivity. Qed.

Example range_pages : range 1 4 = [1; 2; 3].
Proof. reflexivity. Qed.

(** The scenario of the specification, on five pages: the first descriptor is
    extracted, the second exceeds the page count, the third is inverted. *)
Example scenario :
  let o := extract_pages Byte.byte toy_parse toy_serialise all_writable "d/s.pdf"
             [(1, 2, "A"); (3, 9, "B"); (4, 3, "C")] 0 toy_world in
  o.2 = inr tt /\
  trace o.1
  = [EvParse "d/s.pdf"; EvPrint (MsgTotalPages 5);
     EvOpenWrite "d/A.pdf"; EvPrint (MsgSaved 1 2 "d/A.pdf");
     EvOpenWrite "d/A.md"; EvPrint (MsgMarkdownCreated "d/A.md");
     EvPrint (WarnBeyondTotal 3 9 0 5); EvPrint (WarnInverted 4 3 0)] /\
  files o.1
  = <["d/A.md" := []]>
      (<["d/A.pdf" := toy_serialise [Byte.x01; Byte.x02]]> (files toy_world)).
Proof. vm_compute. repeat split. Qed.

(** ** The claims at concrete inputs

    The instance is the small document format above, on [toy_world]. *)

Local Abbreviation toy_extract writable :=
  (extract_pages Byte.byte toy_parse toy_serialise writable).
Local Abbreviation toy_body writable :=
  (loop_body Byte.byte toy_serialise writable).
Local Abbreviation toy_pages :=
  [Byte.x01; Byte.x02; Byte.x03; Byte.x04; Byte.x05].

(** C1 at pages 3 to 4 of five: the descriptor [(2, 3, "A")] with offset 1. *)
Lemma extract_valid_range_pages_witness :
  effective_range_valid (Z.of_nat (length toy_pages)) 1 (2, 3, "A") /\
  files (toy_extract all_writable "d/s.pdf" [(1, 1, "Z"); (2, 3, "A"); (9, 9, "A")] 1
           toy_world).1 !! "d/A.pdf"
  = Some (toy_serialise [Byte.x03; Byte.x04]).
Proof.
  assert (effective_range_valid (Z.of_nat (length toy_pages)) 1 (2, 3, "A")) as Hv.
  { vm_compute. repeat split; discriminate. }
  split; [exact Hv|].
  destruct (extract_valid_range_pages Byte.byte toy_parse toy_serialise all_writable
              toy_pages 1 2 3 "A" Hv) as (_ & _ & Hrun).
  apply (Hrun "d/s.pdf" five_pages [(1, 1, "Z")] [(9, 9, "A")] toy_world).
  - reflexivity.
  - reflexivity.
  - reflexivity.
  - intros r' Hr' Hv'. apply list_elem_of_singleton in Hr'. subst r'.
    vm_compute in Hv'. exfalso. destruct Hv' as (_ & _ & H). by apply H.
Defined.

(** C2 at the descriptor [(3, 9, "B")] on five pages. *)
Lemma invalid_range_skipped_witness :
  (3 + 0 < 1 \/ 9 + 0 < 1 \/ 3 + 0 > 5 \/ 9 + 0 > 5 \/ 3 + 0 > 9 + 0) /\
  exists m, is_warning m /\
    toy_body all_writable toy_pages 5 "d" 0 (3, 9, "B") toy_world
    = (World (files toy_world) (trace toy_world ++ [EvPrint m]), inr tt).
Proof.
  assert (3 + 0 < 1 \/ 9 + 0 < 1 \/ 3 + 0 > 5 \/ 9 + 0 > 5 \/ 3 + 0 > 9 + 0) as H.
  { right; right; right; left. reflexivity. }
  split; [exact H|].
  destruct (invalid_range_skipped Byte.byte toy_serialise all_writable toy_pages 5 "d"
              0 3 9 "B" [] toy_world H) as (m & Hm & Hb & _).
  exists m. split; [exact Hm|exact Hb].
Defined.

(** C3 at a path that is not in [toy_world]. *)
Lemma missing_source_raises_witness :
  files toy_world !! "d/none.pdf" = None /\
  toy_extract all_writable "d/none.pdf" [(1, 2, "A")] 0 toy_world
  = (toy_world, inl (FileNotFoundError "d/none.pdf")).
Proof.
  split; [reflexivity|].
  apply (missing_source_raises Byte.byte toy_parse toy_serialise all_writable
           "d/none.pdf" [(1, 2, "A")] 0 toy_world).
  reflexivity.
Defined.

(** C4 at the descriptor [(1, 2, "Chapter 1")]. *)
Lemma output_filenames_witness :
  (effective_range_valid (Z.of_nat (length toy_pages)) 0 (1, 2, "Chapter 1") /\
   all_writable (document_path "d" (1, 2, "Chapter 1")) = true /\
   all_writable (companion_path "d" (1, 2, "Chapter 1")) = true) /\
  files (toy_body all_writable toy_pages 5 "d" 0 (1, 2, "Chapter 1") toy_world).1
    !! "d/Chapter 1.pdf" = Some (toy_serialise [Byte.x01; Byte.x02]) /\
  files (toy_body all_writable toy_pages 5 "d" 0 (1, 2, "Chapter 1") toy_world).1
    !! "d/Chapter 1.md" = Some [].
Proof.
  assert (effective_range_valid (Z.of_nat (length toy_pages)) 0 (1, 2, "Chapter 1"))
    as Hv.
  { vm_compute. repeat split; discriminate. }
  split; [by repeat split|].
  destruct (output_filenames Byte.byte toy_serialise all_writable toy_pages "d" 0
              (1, 2, "Chapter 1") toy_world Hv eq_refl eq_refl)
    as ((Hdoc & Hmd & _) & _).
  split; [exact Hdoc|exact Hmd].
Defined.

(** C4 as the specification words it fails on a source whose extension is
    not [.pdf]: for the source [d/scan.PDF] it names the document
    [Chapter 1.PDF], and the call writes [Chapter 1.pdf]. *)
Lemma source_extension_counterexample :
  let o := toy_extract all_writable "d/scan.PDF" [(1, 1, "Chapter 1")] 0 toy_world in
  o.2 = inr tt /\
  spec_document_filename "d/scan.PDF" "Chapter 1" = "Chapter 1.PDF" /\
  files o.1 !! os_path.join "d" (spec_document_filename "d/scan.PDF" "Chapter 1") = None /\
  files o.1 !! os_path.join "d" "Chapter 1.pdf" = Some (toy_serialise [Byte.x01]) /\
  pdf_output_filename "Chapter 1" <> spec_document_filename "d/scan.PDF" "Chapter 1".
Proof. vm_compute. repeat split; discriminate. Qed.

(** C5 on a call whose first document cannot be opened. *)
Lemma fatal_failures_witness :
  raises (toy_extract (all_but "d/A.pdf") "d/s.pdf" [(1, 1, "A"); (2, 2, "B")] 0
            toy_world) /\
  ~ raises (toy_extract (all_but "d/A.md") "d/s.pdf" [(1, 1, "A"); (7, 2, "B")] 0
              toy_world).
Proof.
  split.
  - apply (fatal_failures Byte.byte toy_parse toy_serialise (all_but "d/A.pdf")
             "d/s.pdf" [(1, 1, "A"); (2, 2, "B")] 0 toy_world).
    right. right. exists five_pages, toy_pages, (1, 1, "A").
    repeat split; try reflexivity; try discriminate. left.
  - intros H.
    apply (fatal_failures Byte.byte toy_parse toy_serialise (all_but "d/A.md")
             "d/s.pdf" [(1, 1, "A"); (7, 2, "B")] 0 toy_world) in H.
    destruct H as [H|[(c & H1 & H2)|(c & rd & r & H1 & H2 & Hin & Hv & Hw)]].
    + discriminate H.
    + injection H1 as <-. discriminate H2.
    + injection H1 as <-. injection H2 as <-.
      apply elem_of_cons in Hin as [->|Hin]; [discriminate Hw|].
      apply list_elem_of_singleton in Hin. subst r.
      destruct Hv as (_ & Hv & _). by apply Hv.
Defined.

(** C5 as the specification words it fails when a document cannot be
    opened: the source is there and is a document, yet the call raises, and
    the descriptor after the failing one is not processed. *)
Lemma document_write_counterexample :
  let o := toy_extract (all_but "d/A.pdf") "d/s.pdf" [(1, 1, "A"); (2, 2, "B")] 0
             toy_world in
  files toy_world !! "d/s.pdf" = Some five_pages /\
  toy_parse five_pages = Some toy_pages /\
  o.2 = inl (OSError "d/A.pdf") /\
  files o.1 !! "d/B.pdf" = None /\ files o.1 !! "d/B.md" = None /\
  all_but "d/A.pdf" "d/B.pdf" = true.
Proof. vm_compute. repeat split. Qed.

(** C6 on a call with a valid, an invalid and a second valid descriptor. *)
Lemma extract_idempotent_witness :
  let rs : list page_range := [(1, 2, "A"); (3, 9, "B"); (2, 4, "C")] in
  let o1 := toy_extract all_writable "d/s.pdf" rs 0 toy_world in
  let o2 := toy_extract all_writable "d/s.pdf" rs 0 o1.1 in
  files o1.1 !! "d/s.pdf" = files toy_world !! "d/s.pdf" /\
  files o2.1 = files o1.1 /\ o2.2 = o1.2.
Proof.
  intros rs o1 o2.
  assert (files o1.1 !! "d/s.pdf" = files toy_world !! "d/s.pdf") as Hsrc
    by reflexivity.
  split; [exact Hsrc|].
  destruct (extract_idempotent Byte.byte toy_parse toy_serialise all_writable
              "d/s.pdf" rs 0 toy_world Hsrc) as (Hf & Hr & _).
  split; [exact Hf|exact Hr].
Defined.

(** C7 on the file of [toy_world] that is not a document. *)
Lemma unparsable_source_aborts_witness :
  (files toy_world !! "d/broken.pdf" = Some [Byte.x00] /\
   toy_parse [Byte.x00] = None) /\
  (toy_extract all_writable "d/broken.pdf" [(1, 1, "A")] 0 toy_world).2
  = inl (PdfReadError "d/broken.pdf") /\
  files (toy_extract all_writable "d/broken.pdf" [(1, 1, "A")] 0 toy_world).1
  = files toy_world.
Proof.
  split; [by split|].
  destruct (unparsable_source_aborts Byte.byte toy_parse toy_serialise all_writable
              "d/broken.pdf" [(1, 1, "A")] 0 toy_world [Byte.x00] eq_refl eq_refl)
    as (Hr & Hf & _).
  split; [exact Hr|exact Hf].
Defined.

(** C8 on a descriptor whose companion path cannot be opened. *)
Lemma companion_failure_not_fatal_witness :
  (effective_range_valid (Z.of_nat (length toy_pages)) 0 (2, 3, "A") /\
   all_but "d/A.md" (document_path "d" (2, 3, "A")) = true /\
   all_but "d/A.md" (companion_path "d" (2, 3, "A")) = false) /\
  (toy_body (all_but "d/A.md") toy_pages 5 "d" 0 (2, 3, "A") toy_world).2 = inr tt /\
  files (toy_body (all_but "d/A.md") toy_pages 5 "d" 0 (2, 3, "A") toy_world).1
    !! "d/A.pdf" = Some (toy_serialise [Byte.x02; Byte.x03]).
Proof.
  assert (effective_range_valid (Z.of_nat (length toy_pages)) 0 (2, 3, "A")) as Hv.
  { vm_compute. repeat split; discriminate. }
  split; [by repeat split|].
  destruct (companion_failure_not_fatal Byte.byte toy_serialise (all_but "d/A.md")
              toy_pages "d" 0 (2, 3, "A") [] toy_world Hv eq_refl eq_refl)
    as (Hr & _ & Hdoc & _).
  split; [exact Hr|exact Hdoc].
Defined.

(** C9 at [Name.PDF]. *)
Lemma pdf_suffix_case_sensitive_witness :
  (Str.lower ".PDF" = ".pdf" /\ ".PDF" <> ".pdf") /\
  pdf_output_filename ("Name" +:+ ".PDF") = "Name" +:+ ".PDF" +:+ ".pdf".
Proof.
  assert (".PDF" <> ".pdf") as Hne by discriminate.
  split; [by split|].
  apply (pdf_suffix_case_sensitive "Name" ".PDF" eq_refl Hne).
Defined.

(** C10 on a descriptor whose document path cannot be opened. *)
Lemma companion_after_document_witness :
  (effective_range_valid (Z.of_nat (length toy_pages)) 0 (2, 3, "A") /\
   all_but "d/A.pdf" (document_path "d" (2, 3, "A")) = false) /\
  (toy_body (all_but "d/A.pdf") toy_pages 5 "d" 0 (2, 3, "A") toy_world).2
  = inl (OSError "d/A.pdf") /\
  files (toy_body (all_but "d/A.pdf") toy_pages 5 "d" 0 (2, 3, "A") toy_world).1
  = files toy_world.
Proof.
  assert (effective_range_valid (Z.of_nat (length toy_pages)) 0 (2, 3, "A")) as Hv.
  { vm_compute. repeat split; discriminate. }
  split; [by split|].
  destruct (companion_after_document Byte.byte toy_serialise (all_but "d/A.pdf")
              toy_pages "d" 0 (2, 3, "A") toy_world) as [Hfail _].
  destruct (Hfail Hv eq_refl) as (Hr & Hf & _).
  split; [exact Hr|exact Hf].
Defined.

(** ** The further properties at concrete inputs *)

Local Abbreviation toy_main writable :=
  (main Byte.byte toy_parse toy_serialise writable).
Local Abbreviation book_pages := (replicate 1350 Byte.x01).
Local Abbreviation book_world :=
  (World (<[main_pdf_path := Byte.x25 :: book_pages]> ∅) []).
Local Abbreviation blank_world := (World (<["d/e.pdf" := [Byte.x25]]> ∅) []).


(** X2 at the document the call creates. *)
Lemma extract_pages_changes_pdf_md_only_witness :
  files (toy_extract all_writable "d/s.pdf" [(1, 2, "A")] 0 toy_world).1 !! "d/A.pdf"
    <> files toy_world !! "d/A.pdf" /\
  (Str.endswith "d/A.pdf" ".pdf" = true \/ Str.endswith "d/A.pdf" ".md" = true).
Proof.
  assert (files (toy_extract all_writable "d/s.pdf" [(1, 2, "A")] 0 toy_world).1
            !! "d/A.pdf" <> files toy_world !! "d/A.pdf") as H by discriminate.
  split; [exact H|].
  exact (extract_pages_changes_pdf_md_only Byte.byte toy_parse toy_serialise
           all_writable "d/s.pdf" [(1, 2, "A")] 0 toy_world "d/A.pdf" H).
Defined.

(** X3 at the source itself, which a descriptor overwrites. *)
Lemma extract_pages_deletes_nothing_witness :
  is_Some (files toy_world !! "d/s.pdf") /\
  is_Some (files (toy_extract all_writable "d/s.pdf" [(1, 2, "s")] 0 toy_world).1
             !! "d/s.pdf").
Proof.
  assert (is_Some (files toy_world !! "d/s.pdf")) as H by (by eexists).
  split; [exact H|].
  exact (extract_pages_deletes_nothing Byte.byte toy_parse toy_serialise all_writable
           "d/s.pdf" [(1, 2, "s")] 0 toy_world "d/s.pdf" H).
Defined.

(** X5 at two lists of one descriptor each. *)
Lemma extract_pages_app_witness :
  files (toy_extract all_writable "d/s.pdf" ([(1, 2, "A")] ++ [(3, 4, "B")]) 0
           toy_world).1
  = files (toy_extract all_writable "d/s.pdf" [(3, 4, "B")] 0
             (toy_extract all_writable "d/s.pdf" [(1, 2, "A")] 0 toy_world).1).1.
Proof.
  apply (extract_pages_app Byte.byte toy_parse toy_serialise all_writable
           "d/s.pdf" [(1, 2, "A")] [(3, 4, "B")] 0 toy_world); reflexivity.
Defined.

(** X6 at a first descriptor whose document cannot be opened. *)
Lemma extract_pages_stops_at_failure_witness :
  raises (toy_extract (all_but "d/A.pdf") "d/s.pdf" [(1, 1, "A")] 0 toy_world) /\
  toy_extract (all_but "d/A.pdf") "d/s.pdf" ([(1, 1, "A")] ++ [(2, 2, "B")]) 0 toy_world
  = toy_extract (all_but "d/A.pdf") "d/s.pdf" [(1, 1, "A")] 0 toy_world.
Proof.
  assert (raises (toy_extract (all_but "d/A.pdf") "d/s.pdf" [(1, 1, "A")] 0 toy_world))
    as H by (eexists; reflexivity).
  split; [exact H|].
  exact (extract_pages_stops_at_failure Byte.byte toy_parse toy_serialise
           (all_but "d/A.pdf") "d/s.pdf" [(1, 1, "A")] [(2, 2, "B")] 0 toy_world H).
Defined.

(** X7 at a descriptor that is both below one and beyond the page count. *)
Lemma skip_reason_witness :
  (0 + 0 < 1 \/ 9 + 0 < 1) /\
  toy_body all_writable toy_pages 5 "d" 0 (0, 9, "A") toy_world
  = (log (EvPrint (WarnBelowOne 0 9 0)) toy_world, inr tt).
Proof.
  assert (0 + 0 < 1 \/ 9 + 0 < 1) as H by (left; reflexivity).
  split; [exact H|].
  destruct (skip_reason Byte.byte toy_serialise all_writable toy_pages 5 "d" 0 0 9 "A"
              toy_world) as (H1 & _ & _).
  exact (H1 H).
Defined.


(** X12 at a call with a skipped descriptor between two accepted ones. *)
Lemma extract_pages_open_order_witness :
  opened_paths
    (new_events toy_world
       (toy_extract all_writable "d/s.pdf" [(1, 2, "A"); (3, 9, "B"); (2, 4, "C")] 0
          toy_world).1)
  = expected_opens (Z.of_nat (length toy_pages)) 0 (pdf_dir_of "d/s.pdf")
      [(1, 2, "A"); (3, 9, "B"); (2, 4, "C")].
Proof.
  apply (extract_pages_open_order Byte.byte toy_parse toy_serialise all_writable
           "d/s.pdf" [(1, 2, "A"); (3, 9, "B"); (2, 4, "C")] 0 toy_world
           five_pages toy_pages eq_refl eq_refl).
  reflexivity.
Defined.

(** X13 at a document without pages. *)
Lemma extract_pages_no_pages_witness :
  (files blank_world !! "d/e.pdf" = Some [Byte.x25] /\ toy_parse [Byte.x25] = Some []) /\
  (toy_extract all_writable "d/e.pdf" [(1, 1, "A"); (0, 0, "B")] 0 blank_world).2
  = inr tt /\
  files (toy_extract all_writable "d/e.pdf" [(1, 1, "A"); (0, 0, "B")] 0 blank_world).1
  = files blank_world.
Proof.
  assert (files blank_world !! "d/e.pdf" = Some [Byte.x25]) as Hsrc
    by (vm_compute; reflexivity).
  split; [by split|].
  destruct (extract_pages_no_pages Byte.byte toy_parse toy_serialise all_writable
              "d/e.pdf" [(1, 1, "A"); (0, 0, "B")] 0 blank_world [Byte.x25]
              Hsrc eq_refl) as (Hr & Hf & _).
  split; [exact Hr|exact Hf].
Defined.

(** X14 at the second of two descriptors. *)
Lemma extract_pages_all_documents_witness :
  files (toy_extract all_writable "d/s.pdf" [(1, 2, "A"); (2, 4, "C")] 0 toy_world).1
    !! "d/C.pdf" = Some (toy_serialise [Byte.x02; Byte.x03; Byte.x04]).
Proof.
  assert (effective_range_valid (Z.of_nat (length toy_pages)) 0 (2, 4, "C")) as Hv.
  { vm_compute. repeat split; discriminate. }
  assert (NoDup (document_path (pdf_dir_of "d/s.pdf")
                   <$> List.filter (range_accepted (Z.of_nat (length toy_pages)) 0)
                         [(1, 2, "A"); (2, 4, "C")])) as Hnd.
  { apply (bool_decide_unpack _). vm_compute. exact I. }
  assert ((2, 4, "C") ∈ [(1, 2, "A"); ((2, 4, "C") : page_range)]) as Hin.
  { right. left. }
  exact (proj1 (extract_pages_all_documents Byte.byte toy_parse toy_serialise
                  all_writable "d/s.pdf" [(1, 2, "A"); (2, 4, "C")] 0 toy_world
                  five_pages toy_pages (2, 4, "C") eq_refl eq_refl eq_refl Hnd Hin Hv)).
Defined.

(** X16 on a book of 1350 pages. *)
Lemma main_chapters_witness :
  (files book_world !! main_pdf_path = Some (Byte.x25 :: book_pages) /\
   toy_parse (Byte.x25 :: book_pages) = Some book_pages /\
   1350 <= Z.of_nat (length book_pages)) /\
  (toy_main all_writable book_world).2 = inr MainDone.
Proof.
  assert (1350 <= Z.of_nat (length book_pages)) as Hlen by (vm_compute; discriminate).
  assert (files book_world !! main_pdf_path = Some (Byte.x25 :: book_pages)) as Hsrc
    by (vm_compute; reflexivity).
  split; [by repeat split|].
  exact (proj1 (main_chapters Byte.byte toy_parse toy_serialise all_writable book_world
                  (Byte.x25 :: book_pages) book_pages Hsrc eq_refl Hlen
                  (fun _ _ => eq_refl))).
Defined.
